(** * AMD water-quality pipeline: proximity join, health index, cleaning

    A shallow embedding of the numeric and bookkeeping cores of the
    pipeline scripts:

    - [archive_experimental/mine_proximity_join_pa8.py]
      ([compute_nearest_chunk], [latest_checkpoint], [append_to_output],
      the checkpointed main loop),
    - [archive_experimental/mine_proximity_join_pa.py]
      (the radius-limited join and the nearest-type summary),
    - [archive_experimental/watershed_health_huc12.py]
      ([safe_norm], [Sickness_Index], the dense ranking),
    - [src/amd_cleaner.py] ([clean_wqx_file]),
    - [src/amd_feature_engineer.py] (the [AMD_impacted] label).

    Floating-point columns are modelled as [option Q]: [None] is the
    null / NaN cell of a pandas column, [Some q] an exact rational.
    Python dicts are [gmap]s, data frames are lists of rows or of
    columns, files are explicit state. *)

From Stdlib Require Import QArith Qabs Qminmax Lqa Lia List Bool String Ascii Arith.
From Stdlib Require Import Sorted Permutation.
From Stdlib Require OrderedTypeEx.
From stdpp Require Import gmap strings list fin_maps.

Set Warnings "-abstract-large-number".
Local Open Scope Q_scope.

(* ================================================================== *)
(** ** Null-aware cells *)
(* ================================================================== *)

(** A float cell of a data frame. *)
Abbreviation cell := (option Q).

(** [a < b] on cells, as numpy evaluates it: a comparison with NaN is
    [False]. *)
Definition cell_ltb (a b : cell) : bool :=
  match a, b with
  | Some x, Some y => if Qlt_le_dec x y then true else false
  | _, _ => false
  end.

(* ================================================================== *)
(** ** amd_feature_engineer.py: the AMD impact label *)
(* ================================================================== *)

Module FeatureEngineer.

(** One row of [feat_df]: the [site_feats] dict of the site.  A key the
    dict does not hold is a NaN cell of the frame. *)
Abbreviation site_feats := (gmap string Q).

(** [feat_df.get(col, np.nan)] read at one row. *)
Definition get (row : site_feats) (col : string) : cell := row !! col.

(** [np.where((pH_mean < 5) | (Iron_mean > 10), 1, 0)] at one row. *)
Definition AMD_impacted (row : site_feats) : Z :=
  if cell_ltb (get row "pH_mean") (Some 5) || cell_ltb (Some 10) (get row "Iron_mean")
  then 1%Z else 0%Z.

End FeatureEngineer.

(* ================================================================== *)
(** ** mine_proximity_join_pa8.py: nearest search on a chunk *)
(* ================================================================== *)

Module ProximityJoin8.

(** [id(g)]: the identity of a Python object.  A list of geometries holds
    references, so a layer is a list of such identities and [deref] reads
    the geometry an identity stands for. *)
Abbreviation addr := nat.

(** The [geometry] cell of a chemistry row, as the loop tests it:
    [None], an empty geometry, or a point. *)
Inductive point_cell (geometry : Type) : Type :=
| GeomNone
| GeomEmpty
| GeomPoint (g : geometry).
Arguments GeomNone {geometry}.
Arguments GeomEmpty {geometry}.
Arguments GeomPoint {geometry} g.

(** One row of the frame [compute_nearest_chunk] returns: the
    [{name}_idx] and [{name}_dist_m] cells. *)
Abbreviation near_row := (option nat * cell)%type.

(** The null row: [idxs.append(None); dists.append(np.nan)]. *)
Definition null_row : near_row := (None, None).

(** [{id(g): i for i, g in enumerate(geoms)}]: a later entry with the
    same key replaces the earlier one. *)
Fixpoint build_idx_map (geoms : list addr) (i : nat) (m : gmap addr nat)
  : gmap addr nat :=
  match geoms with
  | [] => m
  | g :: rest => build_idx_map rest (S i) (<[g := i]> m)
  end.

Definition idx_map (geoms : list addr) : gmap addr nat :=
  build_idx_map geoms 0 ∅.

(** [np.array_split(ary, n)]: [len % n] blocks of [len // n + 1] rows,
    then blocks of [len // n] rows; [n = 0] raises [ValueError]. *)
Fixpoint split_sizes {A} (l : list A) (sizes : list nat) : list (list A) :=
  match sizes with
  | [] => []
  | k :: rest => take k l :: split_sizes (drop k l) rest
  end.

Definition array_split {A} (l : list A) (n : nat) : option (list (list A)) :=
  match n with
  | O => None
  | S _ =>
      let each := (length l / n)%nat in
      let extras := (length l mod n)%nat in
      Some (split_sizes l (repeat (S each) extras ++ repeat each (n - extras)))
  end.

(** [N_JOBS = min(8, os.cpu_count() - 1)]. *)
Definition N_JOBS (cpu_count : nat) : nat := Nat.min 8 (cpu_count - 1).

Definition CHUNK_SIZE : nat := 30000.

Section NearestSearch.

(** Shapely geometries and [geom.distance(other)]. *)
Variable geometry : Type.
Variable distance : geometry -> geometry -> Q.

(** The heap: the geometry behind an object identity. *)
Variable deref : addr -> geometry.

(** [STRtree(target_gdf.geometry)] ([None]: the constructor raised) and
    [tree.nearest(geom)] ([None]: the call raised, or returned no
    geometry). *)
Variable strtree : Type.
Variable STRtree : list addr -> option strtree.
Variable tree_nearest : strtree -> geometry -> option addr.

(** The body of the [for geom in df_chunk.geometry] loop. *)
Definition nearest_row (tree : strtree) (m : gmap addr nat)
    (geom : point_cell geometry) : near_row :=
  match geom with
  | GeomNone | GeomEmpty => null_row
  | GeomPoint g =>
      match tree_nearest tree g with
      | None => null_row
      | Some nearest =>
          match m !! nearest with
          | None => null_row                       (* KeyError *)
          | Some i => (Some i, Some (distance g (deref nearest)))
          end
      end
  end.

(** [compute_nearest_chunk(df_chunk, target_gdf, name)]; the column
    labels [{name}_idx], [{name}_dist_m] are the same in every frame of
    one layer and are left out. *)
Definition compute_nearest_chunk (df_chunk : list (point_cell geometry))
    (target_gdf : list addr) : list near_row :=
  match STRtree target_gdf with
  | None => map (fun _ => null_row) df_chunk
  | Some tree =>
      let m := idx_map target_gdf in
      map (nearest_row tree m) df_chunk
  end.

(** The [try] block of the main loop: the parallel path, and the
    sequential fallback when it raises.  [joblib_ok] is false when the
    [Parallel] call itself raises. *)
Definition parallel_path (joblib_ok : bool) (n_jobs : nat)
    (chunk : list (point_cell geometry)) (gdf : list addr)
  : option (list near_row) :=
  match array_split chunk n_jobs with
  | None => None
  | Some splits =>
      if joblib_ok
      then Some (concat (map (fun s => compute_nearest_chunk s gdf) splits))
      else None
  end.

Definition merged (joblib_ok : bool) (n_jobs : nat)
    (chunk : list (point_cell geometry)) (gdf : list addr) : list near_row :=
  match parallel_path joblib_ok n_jobs chunk gdf with
  | Some rows => rows
  | None => compute_nearest_chunk chunk gdf
  end.

(** What the spatial index promises for a layer that is not empty: the
    tree is built, and [nearest] answers with one of the layer's
    geometries, none of which is closer to the query point. *)
Definition nearest_contract : Prop :=
  forall (layer : list addr) (g : geometry),
    layer <> [] ->
    exists tree nearest,
      STRtree layer = Some tree /\
      tree_nearest tree g = Some nearest /\
      In nearest layer /\
      forall a, In a layer -> distance g (deref nearest) <= distance g (deref a).

(** *** The checkpointed main loop *)

(** A chemistry record: an identifying column and the point geometry. *)
Record chem_row := { rec_id : N; rec_geom : point_cell geometry }.

(** A row of [OUT_PATH]: the chunk's columns followed by the
    [{name}_idx] and [{name}_dist_m] columns of layer [out_layer]. *)
Record out_row := { out_rec : N; out_layer : string; out_near : near_row }.

(** The file [f"{name}_chunk_{offset}.parquet"] of [CHECKPOINT_DIR] and
    its modification time. *)
Record checkpoint := { ck_name : string; ck_offset : nat; ck_mtime : nat }.

(** The files the script reads and writes: the checkpoint directory in
    [os.listdir] order, [OUT_PATH] ([None]: no such file) and the clock
    that stamps new files. *)
Record files := {
  checkpoint_dir : list checkpoint;
  out_path : option (list out_row);
  clock : nat
}.

(** [append_to_output(df)]. *)
Definition append_to_output (df : list out_row) (fs : files) : files :=
  {| checkpoint_dir := checkpoint_dir fs;
     out_path := match out_path fs with
                 | Some existing => Some (existing ++ df)
                 | None => Some df
                 end;
     clock := clock fs |}.

(** [max(files, key=getmtime)]: the first file of the greatest key. *)
Fixpoint max_by_mtime (best : checkpoint) (l : list checkpoint) : checkpoint :=
  match l with
  | [] => best
  | f :: rest =>
      max_by_mtime (if (ck_mtime best <? ck_mtime f)%nat then f else best) rest
  end.

(** [latest_checkpoint()]: the offset in the name of the newest file. *)
Definition latest_checkpoint (fs : files) : nat :=
  match checkpoint_dir fs with
  | [] => 0%nat
  | f :: rest => ck_offset (max_by_mtime f rest)
  end.

(** [reset_checkpoints()]. *)
Definition reset_checkpoints (fs : files) : files :=
  {| checkpoint_dir := []; out_path := out_path fs; clock := clock fs |}.

(** [os.path.exists(checkpoint_file)]. *)
Definition checkpoint_exists (name : string) (offset : nat) (fs : files) : bool :=
  existsb (fun f => String.eqb (ck_name f) name && (ck_offset f =? offset)%nat)
          (checkpoint_dir fs).

(** [out_chunk.to_parquet(checkpoint_file)]. *)
Definition write_checkpoint (name : string) (offset : nat) (fs : files) : files :=
  {| checkpoint_dir :=
       List.filter (fun f => negb (String.eqb (ck_name f) name
                                   && (ck_offset f =? offset)%nat))
                   (checkpoint_dir fs)
       ++ [{| ck_name := name; ck_offset := offset; ck_mtime := clock fs |}];
     out_path := out_path fs;
     clock := S (clock fs) |}.

(** [range(start, stop, step)] for a positive step. *)
Definition py_range (start stop step : nat) : list nat :=
  map (fun k => (start + k * step)%nat)
      (seq 0 ((stop - start + step - 1) / step)).

(** [[chem.iloc[i:i+size] for i in range(start_idx, len(chem), size)]]. *)
Definition chunks (size start_idx : nat) (chem : list chem_row)
  : list (list chem_row) :=
  map (fun i => take size (drop i chem)) (py_range start_idx (length chem) size).

(** [enumerate]. *)
Fixpoint enumerate_from {A} (i : nat) (l : list A) : list (nat * A) :=
  match l with
  | [] => []
  | x :: rest => (i, x) :: enumerate_from (S i) rest
  end.

(** One pass of the inner loop body, for the [i]-th chunk of a layer. *)
Definition process_chunk (size : nat) (joblib_ok : bool) (n_jobs : nat)
    (name : string) (gdf : list addr) (i : nat) (chunk : list chem_row)
    (fs : files) : files :=
  if checkpoint_exists name (i * size) fs then fs
  else
    let rows := merged joblib_ok n_jobs (map rec_geom chunk) gdf in
    let out_chunk :=
      zip_with (fun r nr => {| out_rec := rec_id r; out_layer := name;
                               out_near := nr |}) chunk rows in
    append_to_output out_chunk (write_checkpoint name (i * size) fs).

(** The iterations of the two nested loops, in the order they run: a
    layer with an empty frame is skipped. *)
Definition iterations (size start_idx : nat) (chem : list chem_row)
    (layers : list (string * list addr))
  : list (string * list addr * nat * list chem_row) :=
  flat_map (fun '(name, gdf) =>
              match gdf with
              | [] => []
              | _ :: _ =>
                  map (fun '(i, chunk) => (name, gdf, i, chunk))
                      (enumerate_from 0 (chunks size start_idx chem))
              end) layers.

Definition step (size : nat) (joblib_ok : bool) (n_jobs : nat) (fs : files)
    (it : string * list addr * nat * list chem_row) : files :=
  let '(name, gdf, i, chunk) := it in
  process_chunk size joblib_ok n_jobs name gdf i chunk fs.

(** The start of the main section: resume or start fresh. *)
Definition resume_or_reset (fs : files) : nat * files :=
  let start_idx := latest_checkpoint fs in
  if (0 <? start_idx)%nat then (start_idx, fs) else (start_idx, reset_checkpoints fs).

(** A run of the script that is killed after [k] iterations of the
    inner loop: the files are left as they are. *)
Definition killed_run (size : nat) (joblib_ok : bool) (n_jobs : nat) (k : nat)
    (chem : list chem_row) (layers : list (string * list addr)) (fs : files)
  : files :=
  let '(start_idx, fs0) := resume_or_reset fs in
  fold_left (step size joblib_ok n_jobs)
            (take k (iterations size start_idx chem layers)) fs0.

(** A run of the script to its end, with the final cleanup. *)
Definition run_main (size : nat) (joblib_ok : bool) (n_jobs : nat)
    (chem : list chem_row) (layers : list (string * list addr)) (fs : files)
  : files :=
  let '(start_idx, fs0) := resume_or_reset fs in
  reset_checkpoints
    (fold_left (step size joblib_ok n_jobs)
               (iterations size start_idx chem layers) fs0).

(** How many rows of a frame of chemistry records carry record [r]. *)
Definition count_rec (r : N) (chem : list chem_row) : nat :=
  length (List.filter (fun c => N.eqb (rec_id c) r) chem).

(** How many rows of [OUT_PATH] carry record [r] with the columns of
    layer [name]. *)
Definition occurrences (r : N) (name : string) (fs : files) : nat :=
  match out_path fs with
  | None => 0%nat
  | Some rows =>
      length (List.filter (fun o => N.eqb (out_rec o) r
                                    && String.eqb (out_layer o) name) rows)
  end.

End NearestSearch.

Arguments rec_id {geometry} _.
Arguments count_rec {geometry} _ _.
Arguments rec_geom {geometry} _.
Arguments Build_chem_row {geometry} _ _.

(** *** A reference instance of the spatial index

    Points on the x axis of the projected plane, with the Euclidean
    distance between them, and an index that scans its geometries and
    keeps the first of the least distance. *)

Definition line_distance (a b : Q) : Q := Qabs (a - b).

Fixpoint scan_nearest (deref : addr -> Q) (g : Q) (best : addr) (l : list addr)
  : addr :=
  match l with
  | [] => best
  | a :: rest =>
      scan_nearest deref g
        (if Qlt_le_dec (line_distance g (deref a)) (line_distance g (deref best))
         then a else best) rest
  end.

Definition scan_tree (l : list addr) : option (list addr) := Some l.

Definition scan_tree_nearest (deref : addr -> Q) (tree : list addr) (g : Q)
  : option addr :=
  match tree with
  | [] => None
  | a :: rest => Some (scan_nearest deref g a rest)
  end.

(** A heap of features on the x axis: the object [a] lies at
    [1000 * a] m. *)
Definition heap3 (a : addr) : Q := inject_Z (Z.of_nat a * 1000).

(** [n] chemistry records numbered from [start]; record [r] is a point
    on the x axis at [r] m. *)
Fixpoint chem_from (n : nat) (start : N) : list (chem_row Q) :=
  match n with
  | O => []
  | S k =>
      Build_chem_row start (GeomPoint (inject_Z (Z.of_N start)))
        :: chem_from k (N.succ start)
  end.

(** No checkpoint and no output file. *)
Definition no_files : files :=
  {| checkpoint_dir := []; out_path := None; clock := 0 |}.

(** The three layers of the script: two with a feature, the third
    missing on disk and so loaded as an empty frame. *)
Definition sample_layers : list (string * list addr) :=
  [("AML", [1%nat]); ("Bituminous", [2%nat]); ("Anthracite", [])]%string.

(** The script over the reference index, on a machine of 8 cores. *)
Definition sample_killed_run (k : nat) (chem : list (chem_row Q)) (fs : files)
  : files :=
  killed_run Q line_distance heap3 (list addr) scan_tree (scan_tree_nearest heap3)
    CHUNK_SIZE true (N_JOBS 8) k chem sample_layers fs.

Definition sample_run_main (chem : list (chem_row Q)) (fs : files) : files :=
  run_main Q line_distance heap3 (list addr) scan_tree (scan_tree_nearest heap3)
    CHUNK_SIZE true (N_JOBS 8) chem sample_layers fs.

End ProximityJoin8.

(* ================================================================== *)
(** ** mine_proximity_join_pa.py: radius-limited join and summary *)
(* ================================================================== *)

Module ProximityJoinPa.

(** The keys of [LAYER_PATHS], in dict order. *)
Definition LAYER_NAMES : list string :=
  ["anthracite_surface"; "bituminous_surface"; "underground"; "aml_inventory"]%string.

Definition SEARCH_RADIUS_M : Q := 5000.

(** [f"{name}_dist_m"]. *)
Definition dist_col (name : string) : string := (name ++ "_dist_m")%string.

Section Join.

Variable geometry : Type.
Variable distance : geometry -> geometry -> Q.

(** The least distance from [g] to the features of a layer. *)
Fixpoint min_distance (g : geometry) (mines : list geometry) : cell :=
  match mines with
  | [] => None
  | m :: rest =>
      match min_distance g rest with
      | None => Some (distance g m)
      | Some d => Some (Qmin (distance g m) d)
      end
  end.

(** [gpd.sjoin_nearest(sites, mines, how="left", max_distance=r,
    distance_col=c)] at one site, reduced to column [c]: the site is
    joined to every feature at the least distance when that distance is
    within [r], one output row each; otherwise the left join keeps the
    site once, with NaN. *)
Definition sjoin_nearest_row (max_distance : Q) (g : geometry)
    (mines : list geometry) : list cell :=
  match min_distance g mines with
  | None => [None]
  | Some d =>
      if Qle_bool d max_distance
      then map (fun _ => Some d)
               (List.filter (fun m => Qeq_bool (distance g m) d) mines)
      else [None]
  end.

(** [joined[[f"{name}_dist_m"]]] of the loop over [mine_layers]. *)
Definition joined_dist (sites : list geometry) (mines : list geometry)
  : list cell :=
  flat_map (fun g => sjoin_nearest_row SEARCH_RADIUS_M g mines) sites.

End Join.

(** *** The nearest-type summary *)

(** [col.endswith(suffix)]. *)
Definition endswith (s suffix : string) : bool :=
  let n := String.length s in
  let k := String.length suffix in
  if (k <=? n)%nat then String.eqb (substring (n - k) k s) suffix else false.

(** [s.replace(old, "")] for a non-empty [old]: every occurrence, found
    left to right without overlap, is dropped.  [skip] counts the
    characters of an occurrence still to drop. *)
Fixpoint remove_go (old : string) (skip : nat) (s : string) : string :=
  match s with
  | EmptyString => EmptyString
  | String c rest =>
      match skip with
      | S k => remove_go old k rest
      | O =>
          if String.prefix old s
          then remove_go old (String.length old - 1) rest
          else String c (remove_go old 0 rest)
      end
  end.

Definition str_remove (old s : string) : string := remove_go old 0 s.

(** The float columns of one row of [sites], in column order. *)
Abbreviation site_row := (list (string * cell)).

(** [sites[dist_cols]] at one row, with
    [dist_cols = [col for col in sites.columns if col.endswith("_dist_m")]]. *)
Definition dist_cells (row : site_row) : site_row :=
  List.filter (fun kv => endswith (fst kv) "_dist_m") row.

(** [idxmin(axis=1)]: the label of the first column holding the least
    non-null value ([None] when every cell is null). *)
Fixpoint idxmin_go (best : string * Q) (l : site_row) : string * Q :=
  match l with
  | [] => best
  | (_, None) :: rest => idxmin_go best rest
  | (c, Some x) :: rest =>
      idxmin_go (if Qlt_le_dec x (snd best) then (c, x) else best) rest
  end.

Fixpoint idxmin (l : site_row) : option string :=
  match l with
  | [] => None
  | (_, None) :: rest => idxmin rest
  | (c, Some x) :: rest => Some (fst (idxmin_go (c, x) rest))
  end.

(** [min(axis=1)], skipping nulls. *)
Fixpoint row_min (l : site_row) : cell :=
  match l with
  | [] => None
  | (_, None) :: rest => row_min rest
  | (_, Some x) :: rest =>
      match row_min rest with
      | None => Some x
      | Some m => Some (Qmin x m)
      end
  end.

Definition nearest_mine_type (row : site_row) : option string :=
  option_map (str_remove "_dist_m") (idxmin (dist_cells row)).

Definition nearest_mine_dist_m (row : site_row) : cell :=
  row_min (dist_cells row).

(** A row of [sites] after the joins of three layers. *)
Definition sample_site : site_row :=
  [("LatitudeMeasure", Some (40 # 1)); ("LongitudeMeasure", Some (-(78) # 1));
   ("anthracite_surface_dist_m", None);
   ("bituminous_surface_dist_m", Some (120 # 1));
   ("aml_inventory_dist_m", Some (45 # 1))]%string.

End ProximityJoinPa.

(* ================================================================== *)
(** ** watershed_health_huc12.py: the index and the ranking *)
(* ================================================================== *)

Module WatershedHealth.

(** [series.dropna()]. *)
Fixpoint dropna (series : list cell) : list Q :=
  match series with
  | [] => []
  | None :: rest => dropna rest
  | Some x :: rest => x :: dropna rest
  end.

(** [valid.min()] and [valid.max()] of a non-empty series [x :: l]. *)
Fixpoint series_min (x : Q) (l : list Q) : Q :=
  match l with
  | [] => x
  | y :: rest => Qmin x (series_min y rest)
  end.

Fixpoint series_max (x : Q) (l : list Q) : Q :=
  match l with
  | [] => x
  | y :: rest => Qmax x (series_max y rest)
  end.

(** Float division as [safe_norm] meets it.  Its only zero denominator
    is [max - min] of a constant series, where every numerator
    [x - min] is zero too, and [0 / 0] is NaN. *)
Definition float_div (a b : Q) : cell :=
  if Qeq_bool b 0 then None else Some (a / b).

(** [safe_norm(series)]. *)
Definition safe_norm (series : list cell) : list cell :=
  match dropna series with
  | [] => map (fun _ => None) series
  | v :: vs =>
      let lo := series_min v vs in
      let hi := series_max v vs in
      map (fun c => match c with
                    | None => None
                    | Some x => float_div (x - lo) (hi - lo)
                    end) series
  end.

(** The three shapes of a series: no value; values that are all equal;
    and values with a least one strictly below a greatest one. *)
Inductive shape (series : list cell) : Prop :=
| AllNull : dropna series = [] -> shape series
| Constant (v : Q) (vs : list Q) :
    dropna series = v :: vs -> series_max v vs - series_min v vs == 0 -> shape series
| Spread (v : Q) (vs : list Q) :
    dropna series = v :: vs -> series_min v vs < series_max v vs -> shape series.

Definition notna (c : cell) : bool :=
  match c with Some _ => true | None => false end.

(** The [dist_inv] column: [1 - dist_norm], or NaN throughout when the
    distance column has no value. *)
Definition dist_inv (dist : list cell) : list cell :=
  if existsb notna dist
  then map (fun c => match c with
                     | None => None
                     | Some d => Some (1 - d)
                     end) (safe_norm dist)
  else map (fun _ => None) dist.

Fixpoint Qsum (l : list Q) : Q :=
  match l with
  | [] => 0
  | x :: rest => x + Qsum rest
  end.

(** [mean(axis=1, skipna=True)] of the cells of one row. *)
Definition mean_skipna (cells : list cell) : cell :=
  match dropna cells with
  | [] => None
  | v :: vs => Some (Qsum (v :: vs) / inject_Z (Z.of_nat (length (v :: vs))))
  end.

(** The cells of row [i] across a list of columns. *)
Definition row_at (i : nat) (cols : list (list cell)) : list cell :=
  map (fun col => List.nth i col None) cols.

(** The [{c}_norm] columns. *)
Definition norm_cols (chem_cols : list (list cell)) : list (list cell) :=
  map safe_norm chem_cols.

(** The [chem_score] column of a frame of [n] rows. *)
Definition chem_score (chem_cols : list (list cell)) (n : nat) : list cell :=
  map (fun i => mean_skipna (row_at i (norm_cols chem_cols))) (seq 0 n).

(** [(0.6 * chem_score) + (0.4 * dist_inv)] at one row. *)
Definition weighted (cs di : cell) : cell :=
  match cs, di with
  | Some a, Some b => Some ((6 # 10) * a + (4 # 10) * b)
  | _, _ => None
  end.

(** The [Sickness_Index] column: the frame holds the chemistry columns
    [chem_cols] and the distance column [dist], all of one length. *)
Definition Sickness_Index (chem_cols : list (list cell)) (dist : list cell)
  : list cell :=
  zip_with weighted (chem_score chem_cols (length dist)) (dist_inv dist).

(** *** The HUC12 summary *)

Definition Q_eq_dec (x y : Q) : {x = y} + {x <> y}.
Proof. decide equality; [apply Pos.eq_dec | apply Z.eq_dec]. Defined.

Definition Qgtb (w v : Q) : bool := negb (Qle_bool w v).

(** [rank(ascending=False, method="dense")] of the value [v] in a column
    of non-null [values]: one more than the number of distinct values
    above it. *)
Definition dense_rank (values : list Q) (v : Q) : nat :=
  S (length (nodup Q_eq_dec (map Qred (List.filter (fun w => Qgtb w v) values)))).

(** The values of a column without nulls; [None] when it has one. *)
Fixpoint all_values (col : list cell) : option (list Q) :=
  match col with
  | [] => Some []
  | None :: _ => None
  | Some x :: rest =>
      match all_values rest with
      | Some l => Some (x :: l)
      | None => None
      end
  end.

(** One row of [summary] once ranked. *)
Record summary_row := { huc : string; mean_index : Q; Rank : nat }.

(** [summary["Sickness_Index"].rank(ascending=False, method="dense")
    .astype(int)]: a null mean has a null rank and [astype(int)] raises. *)
Definition ranked (summary : list (string * cell)) : option (list summary_row) :=
  match all_values (map snd summary) with
  | None => None
  | Some values =>
      Some (zip_with (fun h v => {| huc := h; mean_index := v;
                                    Rank := dense_rank values v |})
                     (map fst summary) values)
  end.

(** [summary.sort_values("Rank")], as an insertion sort. *)
Fixpoint insert_by_rank (r : summary_row) (l : list summary_row)
  : list summary_row :=
  match l with
  | [] => [r]
  | x :: rest =>
      if (Rank r <=? Rank x)%nat then r :: l else x :: insert_by_rank r rest
  end.

Fixpoint sort_by_rank (l : list summary_row) : list summary_row :=
  match l with
  | [] => []
  | x :: rest => insert_by_rank x (sort_by_rank rest)
  end.

Definition summary_table (summary : list (string * cell))
  : option (list summary_row) :=
  option_map sort_by_rank (ranked summary).

(** A frame of two records: a constant [Fe] column, the
    [ResultMeasureValue] and [Temperatur] columns and the distance
    column. *)
Definition sample_Fe : list cell := [Some (5 # 1); Some (5 # 1)].
Definition sample_analyte : list cell := [Some (1 # 1); Some (2 # 1)].
Definition sample_temp : list cell := [None; None].
Definition sample_dist : list cell := [Some (10 # 1); Some (20 # 1)].

End WatershedHealth.

(* ================================================================== *)
(** ** amd_cleaner.py: the AMD subset *)
(* ================================================================== *)

Module Cleaner.

Definition amd_params : list string :=
  ["pH"; "Iron"; "Manganese"; "Aluminum"; "Sulfate"; "Alkalinity";
   "Specific conductance"]%string.

(** A text cell: NaN or a string. *)
Abbreviation text_cell := (option string).

(** A row of a frame: its cells under their column labels. *)
Abbreviation record := (list (string * text_cell)).

(** A chunk once cleaned (after [drop_duplicates]); its column labels
    are distinct. *)
Record frame := { columns : list string; rows : list record }.

(** The cell of a row under a label (NaN when the row has none). *)
Fixpoint field (name : string) (r : record) : text_cell :=
  match r with
  | [] => None
  | (k, v) :: rest => if String.eqb k name then v else field name rest
  end.

(** [series.isin(amd_params)] at one cell. *)
Definition isin (values : list string) (c : text_cell) : bool :=
  match c with
  | None => false
  | Some s => existsb (String.eqb s) values
  end.

(** ["CharacteristicName" in chunk.columns]. *)
Definition has_column (name : string) (f : frame) : bool :=
  existsb (String.eqb name) (columns f).

(** [chunk[chunk["CharacteristicName"].isin(amd_params)]]. *)
Definition subset_of (f : frame) : list record :=
  List.filter (fun r => isin amd_params (field "CharacteristicName" r)) (rows f).

(** The two output files and the two first-write flags. *)
Record state := {
  out_clean : option (list record);
  out_subset : option (list record);
  first_clean : bool;
  first_subset : bool
}.

(** [df.to_csv(path, mode=...)] on the rows of a file. *)
Definition to_csv (first : bool) (file : option (list record))
    (df : list record) : option (list record) :=
  if first then Some df
  else match file with
       | Some old => Some (old ++ df)
       | None => Some df
       end.

(** The loop body from "Write cleaned chunk" on. *)
Definition write_chunk (st : state) (chunk : frame) : state :=
  let st1 := {| out_clean := to_csv (first_clean st) (out_clean st) (rows chunk);
                out_subset := out_subset st;
                first_clean := false;
                first_subset := first_subset st |} in
  if has_column "CharacteristicName" chunk then
    match subset_of chunk with
    | [] => st1
    | subset =>
        {| out_clean := out_clean st1;
           out_subset := to_csv (first_subset st1) (out_subset st1) subset;
           first_clean := false;
           first_subset := false |}
    end
  else st1.

(** [clean_wqx_file] over the cleaned chunks, from the files as they are
    found. *)
Definition clean_wqx_file (chunks : list frame)
    (clean_before subset_before : option (list record)) : state :=
  fold_left write_chunk chunks
    {| out_clean := clean_before; out_subset := subset_before;
       first_clean := true; first_subset := true |}.

(** The subset as the specification words it: of the rows of the
    cleaned chunks that have a [CharacteristicName] column, those whose
    [CharacteristicName] is one of the AMD parameters. *)
Definition expected_subset (chunks : list frame) : list record :=
  List.filter (fun r => isin amd_params (field "CharacteristicName" r))
    (flat_map (fun ch => if has_column "CharacteristicName" ch
                         then rows ch else []) chunks).

(** Three cleaned chunks: the second has no [CharacteristicName]
    column. *)
Definition sample_chunks : list frame :=
  [ {| columns := ["CharacteristicName"; "ResultMeasureValue"];
       rows := [[("CharacteristicName", Some "pH"); ("ResultMeasureValue", Some "6.5")];
                [("CharacteristicName", Some "Lead"); ("ResultMeasureValue", Some "0.1")];
                [("CharacteristicName", None); ("ResultMeasureValue", Some "3")]] |};
    {| columns := ["ResultMeasureValue"];
       rows := [[("ResultMeasureValue", Some "7")]] |};
    {| columns := ["CharacteristicName"; "ResultMeasureValue"];
       rows := [[("CharacteristicName", Some "Iron"); ("ResultMeasureValue", Some "12")];
                [("CharacteristicName", Some "iron"); ("ResultMeasureValue", Some "2")]] |}
  ]%string.

End Cleaner.

(* ================================================================== *)
(** ** mine_proximity_join_pa8.py: the rows of the output file *)
(* ================================================================== *)

Module JoinOutput.
Import ProximityJoin8.

(** The rows [gpd.read_parquet(OUT_PATH)] would give: none when the file
    does not exist. *)
Definition rows_of (fs : files) : list out_row :=
  match out_path fs with
  | Some rows => rows
  | None => []
  end.

End JoinOutput.

(* ================================================================== *)
(** ** mine_proximity_join_pa.py: loading the chemistry sites *)
(* ================================================================== *)

Module WqxSites.

(** Candidate names seen in WQP exports. *)
Definition lat_candidates : list string :=
  ["LatitudeMeasure"; "Latitude"; "MonitoringLocationLatitude"; "DEC_LAT"; "Lat"]%string.
Definition lon_candidates : list string :=
  ["LongitudeMeasure"; "Longitude"; "MonitoringLocationLongitude"; "DEC_LONG"; "Lon"]%string.
Definition id_candidates : list string :=
  ["MonitoringLocationIdentifier"; "ActivityIdentifier"; "OrganizationIdentifier"]%string.

(** [next((c for c in candidates if c in cols), None)]. *)
Definition first_present (candidates cols : list string) : option string :=
  List.find (fun c => existsb (String.eqb c) cols) candidates.

(** The header stage of [load_wqx_sites]: [None] is the [ValueError]
    raised when the latitude or the longitude column is not found;
    otherwise [usecols]. *)
Definition usecols (cols : list string) : option (list string) :=
  match first_present lat_candidates cols, first_present lon_candidates cols with
  | Some lat_col, Some lon_col =>
      Some ([lat_col; lon_col]
            ++ match first_present id_candidates cols with
               | Some id_col => [id_col]
               | None => []
               end)
  | _, _ => None
  end.

End WqxSites.

(* ================================================================== *)
(** ** watershed_health_huc12.py: column checks and aggregation *)
(* ================================================================== *)

Module WatershedPrepare.
Import WatershedHealth.

(** [c in df.columns]. *)
Definition has_col (columns : list string) (c : string) : bool :=
  existsb (String.eqb c) columns.

Definition chem_candidates : list string :=
  ["Fe"; "ResultMeasureValue"; "Temperatur"]%string.

Definition dist_col : string := "Bituminous_dist_m".

(** [[c for c in ["Fe", "ResultMeasureValue", "Temperatur"] if c in df.columns]]. *)
Definition chem_cols (columns : list string) : list string :=
  List.filter (has_col columns) chem_candidates.

(** ["HUC12_ID" if "HUC12_ID" in df.columns else "HUC12"]. *)
Definition huc_col (columns : list string) : string :=
  if has_col columns "HUC12_ID" then "HUC12_ID"%string else "HUC12"%string.

(** [[c for c in chem_cols + [dist_col, huc_col] if c not in df.columns]];
    a non-empty list raises [KeyError]. *)
Definition missing_cols (columns : list string) : list string :=
  List.filter (fun c => negb (has_col columns c))
    (chem_cols columns ++ [dist_col; huc_col columns]).

(** The columns of [data] once the index is computed; [dist_any] tells
    whether the distance column holds a value ([dist_norm] is only added
    then). *)
Definition data_columns (columns : list string) (dist_any : bool) : list string :=
  [huc_col columns; dist_col] ++ chem_cols columns
  ++ map (fun c => (c ++ "_norm")%string) (chem_cols columns)
  ++ (if dist_any then ["dist_norm"; "dist_inv"] else ["dist_inv"])%string
  ++ ["chem_score"; "Sickness_Index"]%string.

(** The keys of the [agg] dict; [agg] raises [KeyError] when one of them
    is not a column of [data]. *)
Definition agg_keys : list string :=
  ["Fe"; "ResultMeasureValue"; "Temperatur"; dist_col; "Sickness_Index"]%string.

Definition agg_ok (columns : list string) (dist_any : bool) : bool :=
  forallb (has_col (data_columns columns dist_any)) agg_keys.

(** *** [groupby(huc_col).agg(... "mean")] on one column *)

(** The group keys in the sorted order [groupby] gives them: [k] goes
    before the first key that is not below it, unless it is that key. *)
Fixpoint insert_key (k : string) (keys : list string) : list string :=
  match keys with
  | [] => [k]
  | x :: rest =>
      match String.compare k x with
      | Lt => k :: keys
      | Eq => keys
      | Gt => x :: insert_key k rest
      end
  end.

Definition group_keys (data : list (string * cell)) : list string :=
  fold_right insert_key [] (map fst data).

(** The cells of the records of one group. *)
Definition group_cells (k : string) (data : list (string * cell)) : list cell :=
  map snd (List.filter (fun r => String.eqb (fst r) k) data).

(** The [Sickness_Index] column of [summary]: per HUC12, the mean of the
    non-null cells of its records (null when there is none). *)
Definition groupby_mean (data : list (string * cell)) : list (string * cell) :=
  map (fun k => (k, mean_skipna (group_cells k data))) (group_keys data).

End WatershedPrepare.

(* ================================================================== *)
(** ** amd_cleaner.py: cleaning the headers *)
(* ================================================================== *)

Module CleanerHeaders.

(** Whitespace as [str.strip()] sees it in ASCII text: the characters
    9 to 13, 28 to 31 and the space. *)
Definition is_space (c : ascii) : bool :=
  let n := nat_of_ascii c in
  ((9 <=? n)%nat && (n <=? 13)%nat) || ((28 <=? n)%nat && (n <=? 32)%nat).

Fixpoint lstrip (s : string) : string :=
  match s with
  | EmptyString => EmptyString
  | String c rest => if is_space c then lstrip rest else s
  end.

Fixpoint rstrip (s : string) : string :=
  match s with
  | EmptyString => EmptyString
  | String c rest =>
      match rstrip rest with
      | EmptyString => if is_space c then EmptyString else String c EmptyString
      | r => String c r
      end
  end.

(** [s.strip()]. *)
Definition strip (s : string) : string := rstrip (lstrip s).

(** [s.replace(old, new)] for one-character [old] and [new]. *)
Fixpoint replace_char (old new : ascii) (s : string) : string :=
  match s with
  | EmptyString => EmptyString
  | String c rest =>
      String (if Ascii.eqb c old then new else c) (replace_char old new rest)
  end.

(** [columns.str.strip().str.replace(" ", "_").str.replace("/", "_")
    .str.replace("-", "_")] on one header. *)
Definition clean_header (h : string) : string :=
  replace_char "-" "_" (replace_char "/" "_" (replace_char " " "_" (strip h))).

(** The character [c] occurs in [s]. *)
Fixpoint occurs (c : ascii) (s : string) : bool :=
  match s with
  | EmptyString => false
  | String x rest => Ascii.eqb x c || occurs c rest
  end.

(** What the three replacements make of one character, and a map over
    the characters of a string. *)
Definition tidy (c : ascii) : ascii :=
  if Ascii.eqb c " " || Ascii.eqb c "/" || Ascii.eqb c "-" then "_"%char else c.

Fixpoint smap (f : ascii -> ascii) (s : string) : string :=
  match s with
  | EmptyString => EmptyString
  | String c rest => String (f c) (smap f rest)
  end.

End CleanerHeaders.

(* ================================================================== *)
(** ** amd_feature_engineer.py: filtering and per-site statistics *)
(* ================================================================== *)

Module FeatureStats.
Import WatershedHealth Cleaner.

Definition AMD_PARAMS : list string :=
  ["pH"; "Iron"; "Manganese"; "Aluminum"; "Sulfate"; "Alkalinity";
   "Specific conductance"]%string.

(** [df[df["CharacteristicName"].isin(AMD_PARAMS)]] on the rows read from
    the subset file. *)
Definition keep_amd (rows : list record) : list record :=
  List.filter (fun r => isin AMD_PARAMS (field "CharacteristicName" r)) rows.

(** The samples of one site and one parameter: year and value, both
    non-null (the rows left by the first [dropna]). *)
Abbreviation samples := (list (Z * Q)).

(** [df.loc[abs(value) > 1e5, value] = nan] followed by [dropna]: the
    samples that are not sentinel values. *)
Definition drop_sentinels (s : samples) : samples :=
  List.filter (fun r => Qle_bool (Qabs (snd r)) 100000) s.

(** The years of the groups, in the ascending order [groupby] gives. *)
Fixpoint insert_year (y : Z) (years : list Z) : list Z :=
  match years with
  | [] => [y]
  | x :: rest =>
      match Z.compare y x with
      | Lt => y :: years
      | Eq => years
      | Gt => x :: insert_year y rest
      end
  end.

Definition years_of (s : samples) : list Z :=
  fold_right insert_year [] (map fst s).

Definition year_cells (y : Z) (s : samples) : list cell :=
  map (fun r => Some (snd r)) (List.filter (fun r => Z.eqb (fst r) y) s).

(** [groupby([site, parameter, "Year"])[value].mean()] within one site
    and parameter. *)
Definition yearly_means (s : samples) : list (Z * cell) :=
  map (fun y => (y, mean_skipna (year_cells y s))) (years_of s).

(** [vals.min()] and [vals.max()]. *)
Definition cell_min (cells : list cell) : cell :=
  match dropna cells with
  | [] => None
  | v :: vs => Some (series_min v vs)
  end.

Definition cell_max (cells : list cell) : cell :=
  match dropna cells with
  | [] => None
  | v :: vs => Some (series_max v vs)
  end.

Definition Z_eq_dec (x y : Z) : {x = y} + {x <> y} := Z.eq_dec x y.

(** The [_mean], [_min], [_max] and [_n_years] features of one site and
    parameter (the median, the deviation and the trend are left out). *)
Record basic_stats := {
  s_mean : cell;
  s_min : cell;
  s_max : cell;
  s_n_years : nat
}.

Definition site_param_stats (s : samples) : basic_stats :=
  let grouped := yearly_means (drop_sentinels s) in
  let vals := map snd grouped in
  {| s_mean := mean_skipna vals;
     s_min := cell_min vals;
     s_max := cell_max vals;
     s_n_years := length (nodup Z_eq_dec (map fst grouped)) |}.

End FeatureStats.

(* ================================================================== *)
(** * Properties *)
(* ================================================================== *)

Module FeatureEngineerSpec.
Import FeatureEngineer.

Lemma cell_ltb_true (a b : cell) :
  cell_ltb a b = true <-> exists x y, a = Some x /\ b = Some y /\ x < y.
Proof.
  unfold cell_ltb. split.
  - destruct a as [x|], b as [y|]; try discriminate.
    destruct (Qlt_le_dec x y); [|discriminate]. intros _. eauto.
  - intros (x & y & -> & -> & Hlt).
    destruct (Qlt_le_dec x y) as [|Hle]; [reflexivity|].
    exfalso. apply (Qlt_not_le _ _ Hlt Hle).
Qed.

(** C10: the label of every site row is 0 or 1; it is 1 exactly when the
    row's [pH_mean] is below 5 or its [Iron_mean] is above 10, a missing
    value satisfying neither comparison; a row with both values missing is
    labelled 0. *)
Theorem AMD_impacted_rule (row : gmap string Q) :
  (AMD_impacted row = 0%Z \/ AMD_impacted row = 1%Z) /\
  (AMD_impacted row = 1%Z <->
     (exists p, row !! "pH_mean"%string = Some p /\ p < 5) \/
     (exists f, row !! "Iron_mean"%string = Some f /\ 10 < f)) /\
  (row !! "pH_mean"%string = None -> row !! "Iron_mean"%string = None ->
   AMD_impacted row = 0%Z).
Proof.
  unfold AMD_impacted, get.
  split; [|split].
  - destruct (_ || _); auto.
  - split.
    + destruct (cell_ltb (row !! "pH_mean"%string) (Some 5)) eqn:E1;
        destruct (cell_ltb (Some 10) (row !! "Iron_mean"%string)) eqn:E2;
        cbn [orb]; intros H; try discriminate H.
      * left. apply cell_ltb_true in E1.
        destruct E1 as (x & y & Hx & Hy & Hlt). injection Hy as <-. eauto.
      * left. apply cell_ltb_true in E1.
        destruct E1 as (x & y & Hx & Hy & Hlt). injection Hy as <-. eauto.
      * right. apply cell_ltb_true in E2.
        destruct E2 as (x & y & Hx & Hy & Hlt). injection Hx as <-. eauto.
    + intros [(p & Hp & Hlt)|(f & Hf & Hlt)].
      * assert (E : cell_ltb (row !! "pH_mean"%string) (Some 5) = true)
          by (apply cell_ltb_true; eauto).
        rewrite E. reflexivity.
      * assert (E : cell_ltb (Some 10) (row !! "Iron_mean"%string) = true)
          by (apply cell_ltb_true; eauto).
        rewrite E, orb_true_r. reflexivity.
  - intros -> ->. reflexivity.
Qed.

End FeatureEngineerSpec.

Module ProximityJoin8Spec.
Import ProximityJoin8.

(** *** The identity map of a layer *)

Lemma build_idx_map_miss (geoms : list addr) (i : nat) (m : gmap addr nat) (a : addr) :
  ~ In a geoms -> build_idx_map geoms i m !! a = m !! a.
Proof.
  revert i m. induction geoms as [|g rest IH]; intros i m Hnin; [reflexivity|].
  simpl. rewrite IH.
  - apply lookup_insert_ne. intros ->. apply Hnin. now left.
  - intros Hin. apply Hnin. now right.
Qed.

Lemma build_idx_map_hit (geoms : list addr) (i : nat) (m : gmap addr nat) (a : addr) :
  In a geoms ->
  exists k, build_idx_map geoms i m !! a = Some (i + k)%nat /\ geoms !! k = Some a.
Proof.
  revert i m. induction geoms as [|g rest IH]; intros i m Hin; [destruct Hin|].
  simpl. destruct (in_dec Nat.eq_dec a rest) as [Hrest|Hrest].
  - destruct (IH (S i) (<[g:=i]> m) Hrest) as (k & Hk & Hl).
    exists (S k). split; [rewrite Hk; f_equal; lia | exact Hl].
  - destruct Hin as [->|Hin]; [|contradiction].
    exists 0%nat. rewrite build_idx_map_miss by assumption.
    rewrite lookup_insert_eq. split; [f_equal; lia | reflexivity].
Qed.

Lemma idx_map_hit (geoms : list addr) (a : addr) :
  In a geoms -> exists k, idx_map geoms !! a = Some k /\ geoms !! k = Some a.
Proof.
  intros Hin. destruct (build_idx_map_hit geoms 0 ∅ a Hin) as (k & Hk & Hl).
  exists k. split; assumption.
Qed.

Section Nearest.

Context {geometry : Type} (distance : geometry -> geometry -> Q)
        (deref : addr -> geometry) {strtree : Type}
        (STRtree : list addr -> option strtree)
        (tree_nearest : strtree -> geometry -> option addr).

Local Abbreviation compute := (compute_nearest_chunk geometry distance deref strtree STRtree tree_nearest).

(** The sequential result is a row-by-row map, whichever [try] branch
    produced it. *)
Lemma compute_is_map (gdf : list addr) :
  exists f, forall chunk, compute chunk gdf = map f chunk.
Proof.
  unfold compute_nearest_chunk. destruct (STRtree gdf) as [tree|].
  - eexists. intros chunk. reflexivity.
  - eexists. intros chunk. reflexivity.
Qed.

(** A point row under the index contract. *)
Lemma compute_point_row (Hc : nearest_contract geometry distance deref strtree STRtree tree_nearest)
    (chunk : list (point_cell geometry)) (layer : list addr) (k : nat) (g : geometry) :
  layer <> [] ->
  chunk !! k = Some (GeomPoint g) ->
  exists i a,
    compute chunk layer !! k = Some (Some i, Some (distance g (deref a))) /\
    layer !! i = Some a /\
    forall a', In a' layer -> distance g (deref a) <= distance g (deref a').
Proof.
  intros Hne Hk.
  destruct (Hc layer g Hne) as (tree & nearest & Htree & Hnear & Hin & Hmin).
  destruct (idx_map_hit layer nearest Hin) as (i & Hi & Hl).
  exists i, nearest. split; [|split; assumption].
  unfold compute_nearest_chunk. rewrite Htree. cbn zeta.
  rewrite list_lookup_fmap, Hk. simpl. rewrite Hnear, Hi. reflexivity.
Qed.

End Nearest.

(** C1: for a layer that is not empty and a query point that is neither
    null nor empty, the row [compute_nearest_chunk] returns holds the index
    of a layer geometry at the least distance from the point, and the
    distance reported is the distance to that geometry. *)
Theorem compute_nearest_chunk_minimal
    (geometry : Type) (distance : geometry -> geometry -> Q)
    (deref : addr -> geometry) (strtree : Type)
    (STRtree : list addr -> option strtree)
    (tree_nearest : strtree -> geometry -> option addr)
    (Hc : nearest_contract geometry distance deref strtree STRtree tree_nearest)
    (chunk : list (point_cell geometry)) (layer : list addr)
    (k : nat) (g : geometry)
    (Hlayer : layer <> [])
    (Hpoint : chunk !! k = Some (GeomPoint g)) :
  exists (i : nat) (d : Q) (a : addr),
    compute_nearest_chunk geometry distance deref strtree STRtree tree_nearest
      chunk layer !! k = Some (Some i, Some d) /\
    layer !! i = Some a /\
    d = distance g (deref a) /\
    forall a', In a' layer -> d <= distance g (deref a').
Proof.
  destruct (compute_point_row distance deref STRtree tree_nearest Hc
              chunk layer k g Hlayer Hpoint) as (i & a & Hrow & Hl & Hmin).
  exists i, (distance g (deref a)), a. repeat split; assumption.
Qed.

(** The reference index keeps its contract. *)
Lemma scan_nearest_spec (deref : addr -> Q) (g : Q) (l : list addr) (best : addr) :
  In (scan_nearest deref g best l) (best :: l) /\
  forall a, In a (best :: l) ->
    line_distance g (deref (scan_nearest deref g best l)) <= line_distance g (deref a).
Proof.
  revert best. induction l as [|x rest IH]; intros best; simpl.
  - split; [now left|]. intros a [->|[]]. apply Qle_refl.
  - destruct (Qlt_le_dec (line_distance g (deref x)) (line_distance g (deref best)))
      as [Hlt|Hle].
    + destruct (IH x) as [Hin Hmin]. split.
      * destruct Hin as [<-|Hin]; [right; now left | right; now right].
      * intros a [->|[->|Ha]].
        -- apply Qle_trans with (line_distance g (deref x)).
           ++ apply Hmin. now left.
           ++ apply Qlt_le_weak, Hlt.
        -- apply Hmin. now left.
        -- apply Hmin. now right.
    + destruct (IH best) as [Hin Hmin]. split.
      * destruct Hin as [<-|Hin]; [now left | right; now right].
      * intros a [->|[->|Ha]].
        -- apply Hmin. now left.
        -- apply Qle_trans with (line_distance g (deref best)); [|exact Hle].
           apply Hmin. now left.
        -- apply Hmin. now right.
Qed.

Lemma scan_contract (deref : addr -> Q) :
  nearest_contract Q line_distance deref (list addr) scan_tree (scan_tree_nearest deref).
Proof.
  intros layer g Hne. destruct layer as [|a rest]; [contradiction|].
  exists (a :: rest), (scan_nearest deref g a rest).
  destruct (scan_nearest_spec deref g rest a) as [Hin Hmin].
  repeat split; assumption.
Qed.

Lemma compute_nearest_chunk_minimal_witness :
  exists (i : nat) (d : Q) (a : addr),
    compute_nearest_chunk Q line_distance heap3 (list addr) scan_tree
      (scan_tree_nearest heap3) [GeomNone; GeomPoint 1200] [2; 1; 0; 1]%nat !! 1%nat
    = Some (Some i, Some d) /\
    [2; 1; 0; 1]%nat !! i = Some a /\
    d = line_distance 1200 (heap3 a) /\
    forall a', In a' [2; 1; 0; 1]%nat -> d <= line_distance 1200 (heap3 a').
Proof.
  apply (compute_nearest_chunk_minimal Q line_distance heap3 (list addr) scan_tree
           (scan_tree_nearest heap3) (scan_contract heap3)
           [GeomNone; GeomPoint 1200] [2; 1; 0; 1]%nat 1%nat 1200).
  - discriminate.
  - reflexivity.
Defined.

Example compute_nearest_chunk_run :
  compute_nearest_chunk Q line_distance heap3 (list addr) scan_tree
    (scan_tree_nearest heap3) [GeomNone; GeomPoint 1200; GeomEmpty] [2; 1; 0; 1]%nat
  = [(None, None); (Some 3%nat, Some (200 # 1)); (None, None)].
Proof. vm_compute. reflexivity. Qed.

End ProximityJoin8Spec.
Module SplitSpec.
Import ProximityJoin8.
Local Open Scope nat_scope.

Lemma concat_split_sizes {A} (sizes : list nat) (l : list A) :
  (length l <= list_sum sizes)%nat -> concat (split_sizes l sizes) = l.
Proof.
  revert l. induction sizes as [|k rest IH]; intros l Hlen; simpl in *.
  - destruct l; [reflexivity | simpl in Hlen; lia].
  - rewrite IH; [apply take_drop|]. rewrite length_drop. lia.
Qed.

Lemma length_split_sizes {A} (sizes : list nat) (l : list A) :
  length (split_sizes l sizes) = length sizes.
Proof.
  revert l. induction sizes as [|k rest IH]; intros l; simpl; [reflexivity|].
  now rewrite IH.
Qed.

Lemma list_sum_repeat (x n : nat) : list_sum (repeat x n) = (n * x)%nat.
Proof. induction n as [|n IH]; simpl; [reflexivity | rewrite IH; lia]. Qed.

Lemma array_split_sizes (len n : nat) :
  (0 < n)%nat ->
  list_sum (repeat (S (len / n)) (len mod n) ++ repeat (len / n) (n - len mod n)) = len.
Proof.
  intros Hn. rewrite list_sum_app, !list_sum_repeat.
  pose proof (Nat.div_mod_eq len n) as Hdm.
  pose proof (Nat.mod_upper_bound len n ltac:(lia)) as Hlt.
  nia.
Qed.

(** [np.array_split] into at least one block succeeds, gives that many
    blocks, and the blocks in order make up the input. *)
Lemma array_split_spec {A} (l : list A) (n : nat) :
  (0 < n)%nat ->
  exists splits, array_split l n = Some splits /\
                 length splits = n /\ concat splits = l.
Proof.
  intros Hn. destruct n as [|m]; [lia|].
  eexists. split; [reflexivity|]. split.
  - rewrite length_split_sizes, length_app, !repeat_length.
    pose proof (Nat.mod_upper_bound (length l) (S m) ltac:(lia)). lia.
  - apply concat_split_sizes. rewrite array_split_sizes; lia.
Qed.

Lemma array_split_concat {A} (l : list A) (n : nat) (splits : list (list A)) :
  array_split l n = Some splits -> length splits = n /\ concat splits = l.
Proof.
  intros Hs. destruct n as [|m]; [discriminate|].
  destruct (array_split_spec l (S m) ltac:(lia)) as (s' & Hs' & Hlen & Hcat).
  rewrite Hs in Hs'. injection Hs' as <-. split; assumption.
Qed.

Lemma concat_map_map {A B} (f : A -> B) (ls : list (list A)) :
  concat (map (map f) ls) = map f (concat ls).
Proof.
  induction ls as [|x rest IH]; simpl; [reflexivity|].
  now rewrite IH, map_app.
Qed.

Section Split.

Context {geometry : Type} (distance : geometry -> geometry -> Q)
        (deref : addr -> geometry) {strtree : Type}
        (STRtree : list addr -> option strtree)
        (tree_nearest : strtree -> geometry -> option addr).

Local Abbreviation compute :=
  (compute_nearest_chunk geometry distance deref strtree STRtree tree_nearest).

Lemma compute_concat (gdf : list addr) (splits : list (list (point_cell geometry))) :
  concat (map (fun s => compute s gdf) splits) = compute (concat splits) gdf.
Proof.
  destruct (ProximityJoin8Spec.compute_is_map distance deref STRtree tree_nearest gdf)
    as (f & Hf).
  rewrite Hf. rewrite <- concat_map_map. f_equal.
  apply map_ext. intros s. apply Hf.
Qed.

(** Whatever the parallel path returns is the sequential result. *)
Lemma parallel_path_rows (joblib_ok : bool) (n_jobs : nat)
    (chunk : list (point_cell geometry)) (gdf : list addr) (rows : list near_row) :
  parallel_path geometry distance deref strtree STRtree tree_nearest
    joblib_ok n_jobs chunk gdf = Some rows ->
  rows = compute chunk gdf.
Proof.
  unfold parallel_path.
  destruct (array_split chunk n_jobs) as [splits|] eqn:Hs; [|discriminate].
  destruct joblib_ok; [|discriminate].
  intros [= <-]. rewrite compute_concat.
  apply array_split_concat in Hs. destruct Hs as [_ ->]. reflexivity.
Qed.

Lemma merged_rows (joblib_ok : bool) (n_jobs : nat)
    (chunk : list (point_cell geometry)) (gdf : list addr) :
  merged geometry distance deref strtree STRtree tree_nearest
    joblib_ok n_jobs chunk gdf = compute chunk gdf.
Proof.
  unfold merged.
  destruct (parallel_path _ _ _ _ _ _ joblib_ok n_jobs chunk gdf) as [rows|] eqn:Hp;
    [now apply parallel_path_rows in Hp | reflexivity].
Qed.

Lemma merged_length (joblib_ok : bool) (n_jobs : nat)
    (chunk : list (point_cell geometry)) (gdf : list addr) :
  length (merged geometry distance deref strtree STRtree tree_nearest
            joblib_ok n_jobs chunk gdf) = length chunk.
Proof.
  rewrite merged_rows.
  destruct (ProximityJoin8Spec.compute_is_map distance deref STRtree tree_nearest gdf)
    as (f & Hf).
  rewrite Hf. apply length_map.
Qed.

(** C3: the blocks [np.array_split] cuts a chunk into, each passed to
    [compute_nearest_chunk] and the results concatenated in block order,
    give the rows [compute_nearest_chunk] gives on the whole chunk; the
    split exists for every positive number of jobs and has that many
    blocks; so the rows the main loop merges are those of the sequential
    fallback, whichever path produced them. *)
Theorem parallel_split_equals_sequential
    (joblib_ok : bool) (n_jobs : nat)
    (chunk : list (point_cell geometry)) (gdf : list addr) :
  ((0 < n_jobs)%nat ->
   exists splits,
     array_split chunk n_jobs = Some splits /\
     length splits = n_jobs /\
     concat (map (fun s => compute s gdf) splits) = compute chunk gdf) /\
  (forall rows,
     parallel_path geometry distance deref strtree STRtree tree_nearest
       joblib_ok n_jobs chunk gdf = Some rows ->
     rows = compute chunk gdf) /\
  merged geometry distance deref strtree STRtree tree_nearest
    joblib_ok n_jobs chunk gdf = compute chunk gdf.
Proof.
  split; [|split].
  - intros Hn. destruct (array_split_spec chunk n_jobs Hn) as (splits & Hs & Hlen & Hcat).
    exists splits. repeat split; try assumption.
    rewrite compute_concat, Hcat. reflexivity.
  - apply parallel_path_rows.
  - apply merged_rows.
Qed.

End Split.

Example array_split_10_4 :
  array_split [1; 2; 3; 4; 5; 6; 7; 8; 9; 10]%nat 4
  = Some [[1; 2; 3]; [4; 5; 6]; [7; 8]; [9; 10]]%nat.
Proof. reflexivity. Qed.

Example array_split_2_4 :
  array_split [1; 2]%nat 4 = Some [[1]; [2]; []; []]%nat.
Proof. reflexivity. Qed.

(** On a single core [N_JOBS] is 0: the split raises and the loop takes
    the sequential fallback. *)
Example N_JOBS_single_core :
  N_JOBS 1 = 0 /\ array_split [1; 2] (N_JOBS 1) = None /\ N_JOBS 16 = 8.
Proof. repeat split; reflexivity. Qed.

End SplitSpec.

Module RadiusSpec.
Import ProximityJoin8 ProximityJoinPa.

Section Radius.

Context {geometry : Type} (distance : geometry -> geometry -> Q).

Lemma min_distance_spec (g : geometry) (mines : list geometry) (d : Q) :
  min_distance geometry distance g mines = Some d ->
  (exists m, In m mines /\ distance g m == d) /\
  (forall m', In m' mines -> d <= distance g m').
Proof.
  revert d. induction mines as [|m rest IH]; intros d; simpl; [discriminate|].
  destruct (min_distance geometry distance g rest) as [d'|] eqn:Hrest.
  - intros [= <-]. destruct (IH d' eq_refl) as [(m0 & Hin & Heq) Hmin].
    split.
    + destruct (Q.min_spec (distance g m) d') as [[_ Hm]|[_ Hm]].
      * exists m. split; [now left | now rewrite Hm].
      * exists m0. split; [now right | now rewrite Hm].
    + intros m' [<-|Hin'].
      * apply Q.le_min_l.
      * apply Qle_trans with d'; [apply Q.le_min_r | now apply Hmin].
  - intros [= <-]. split.
    + exists m. split; [now left | reflexivity].
    + intros m' [<-|Hin'].
      * apply Qle_refl.
      * destruct rest; [destruct Hin'|].
        simpl in Hrest. destruct (min_distance geometry distance g rest); discriminate.
Qed.

Lemma min_distance_nonempty (g : geometry) (mines : list geometry) :
  mines <> [] -> exists d, min_distance geometry distance g mines = Some d.
Proof.
  destruct mines as [|m rest]; [contradiction|]. intros _. simpl.
  destruct (min_distance geometry distance g rest); eauto.
Qed.

(** The rows [sjoin_nearest] gives one site: never none, and either a
    single NaN or copies of the least distance, which is then within the
    radius. *)
Lemma sjoin_nearest_row_cases (r : Q) (g : geometry) (mines : list geometry) :
  sjoin_nearest_row geometry distance r g mines = [None] \/
  exists d n,
    min_distance geometry distance g mines = Some d /\ d <= r /\
    sjoin_nearest_row geometry distance r g mines = repeat (Some d) (S n).
Proof.
  unfold sjoin_nearest_row.
  destruct (min_distance geometry distance g mines) as [d|] eqn:Hmin; [|now left].
  destruct (Qle_bool d r) eqn:Hle; [|now left].
  right. apply Qle_bool_iff in Hle.
  destruct (min_distance_spec g mines d Hmin) as [(m & Hin & Heq) _].
  assert (Hlen : exists n,
             length (List.filter (fun m => Qeq_bool (distance g m) d) mines) = S n).
  { assert (Hf : In m (List.filter (fun m => Qeq_bool (distance g m) d) mines)).
    { apply filter_In. split; [exact Hin | now apply Qeq_bool_iff]. }
    destruct (List.filter _ mines); [destruct Hf | eauto]. }
  destruct Hlen as (n & Hn). exists d, n. repeat split; try assumption.
  rewrite <- Hn. clear. induction (List.filter _ mines); simpl; congruence.
Qed.

End Radius.

(** C2, counterexample: in [mine_proximity_join_pa8.py] a sample point
    6000 m from the only feature of a layer, so beyond the 5000 m radius
    from every feature, is tagged with that feature and the distance
    6000, not with a null. *)
Lemma pa8_tags_beyond_radius :
  (forall a, In a [0%nat] -> SEARCH_RADIUS_M < line_distance 6000 (heap3 a)) /\
  compute_nearest_chunk Q line_distance heap3 (list addr) scan_tree
    (scan_tree_nearest heap3) [GeomPoint 6000] [0%nat]
  = [(Some 0%nat, Some 6000)] /\
  ~ 6000 <= SEARCH_RADIUS_M.
Proof.
  split; [|split].
  - intros a [<-|[]]. reflexivity.
  - vm_compute. reflexivity.
  - intros H. vm_compute in H. apply H. reflexivity.
Qed.

(** C2, amended: in [mine_proximity_join_pa.py] every site is kept by the
    join of a layer, a site farther than the 5000 m radius from every
    feature of the layer gets a single null distance, and every non-null
    distance is the least distance to the layer and at most the radius.
    [mine_proximity_join_pa8.py] has no radius: its
    [compute_nearest_chunk] tags every point that is neither null nor
    empty with the least distance to a layer that is not empty, whatever
    that distance is. *)
Theorem radius_only_in_pa
    (geometry : Type) (distance : geometry -> geometry -> Q)
    (deref : addr -> geometry) (strtree : Type)
    (STRtree : list addr -> option strtree)
    (tree_nearest : strtree -> geometry -> option addr)
    (Hc : nearest_contract geometry distance deref strtree STRtree tree_nearest) :
  (forall (g : geometry) (mines : list geometry),
     sjoin_nearest_row geometry distance SEARCH_RADIUS_M g mines <> [] /\
     ((forall m, In m mines -> SEARCH_RADIUS_M < distance g m) ->
      sjoin_nearest_row geometry distance SEARCH_RADIUS_M g mines = [None]) /\
     (forall d, In (Some d) (sjoin_nearest_row geometry distance SEARCH_RADIUS_M g mines) ->
        d <= SEARCH_RADIUS_M /\
        (exists m, In m mines /\ distance g m == d) /\
        (forall m', In m' mines -> d <= distance g m'))) /\
  (forall (sites mines : list geometry) (d : Q),
     In (Some d) (joined_dist geometry distance sites mines) ->
     d <= SEARCH_RADIUS_M) /\
  (forall (chunk : list (point_cell geometry)) (layer : list addr)
          (k : nat) (g : geometry),
     layer <> [] -> chunk !! k = Some (GeomPoint g) ->
     exists i a,
       compute_nearest_chunk geometry distance deref strtree STRtree tree_nearest
         chunk layer !! k = Some (Some i, Some (distance g (deref a))) /\
       layer !! i = Some a /\
       forall a', In a' layer -> distance g (deref a) <= distance g (deref a')).
Proof.
  assert (Hrow : forall (g : geometry) (mines : list geometry) (d : Q),
            In (Some d) (sjoin_nearest_row geometry distance SEARCH_RADIUS_M g mines) ->
            d <= SEARCH_RADIUS_M /\
            (exists m, In m mines /\ distance g m == d) /\
            (forall m', In m' mines -> d <= distance g m')).
  { intros g mines d Hin.
    destruct (sjoin_nearest_row_cases distance SEARCH_RADIUS_M g mines)
      as [Hnull|(d0 & n & Hmin & Hle & Hrows)].
    - rewrite Hnull in Hin. destruct Hin as [Hin|[]]. discriminate Hin.
    - rewrite Hrows in Hin. apply repeat_spec in Hin. injection Hin as ->.
      split; [exact Hle|]. apply (min_distance_spec distance g mines d0 Hmin). }
  split; [|split].
  - intros g mines. split; [|split].
    + destruct (sjoin_nearest_row_cases distance SEARCH_RADIUS_M g mines)
        as [->|(d0 & n & _ & _ & ->)]; discriminate.
    + intros Hfar.
      destruct (sjoin_nearest_row_cases distance SEARCH_RADIUS_M g mines)
        as [Hnull|(d0 & n & Hmin & Hle & _)]; [exact Hnull|].
      exfalso.
      destruct (min_distance_spec distance g mines d0 Hmin) as [(m & Hin & Heq) _].
      specialize (Hfar m Hin). rewrite Heq in Hfar.
      apply (Qlt_not_le _ _ Hfar Hle).
    + apply Hrow.
  - intros sites mines d Hin. unfold joined_dist in Hin.
    apply in_flat_map in Hin. destruct Hin as (g & _ & Hin).
    apply (Hrow g mines d Hin).
  - intros chunk layer k g Hne Hk.
    apply (ProximityJoin8Spec.compute_point_row distance deref STRtree tree_nearest Hc
             chunk layer k g Hne Hk).
Qed.

Lemma radius_only_in_pa_witness :
  sjoin_nearest_row Q line_distance SEARCH_RADIUS_M 6000 [0; 100] = [None] /\
  In (Some 100) (sjoin_nearest_row Q line_distance SEARCH_RADIUS_M 200 [100; 300; 9000]) /\
  exists i a,
    compute_nearest_chunk Q line_distance heap3 (list addr) scan_tree
      (scan_tree_nearest heap3) [GeomPoint 6000] [0%nat] !! 0%nat
    = Some (Some i, Some (line_distance 6000 (heap3 a))).
Proof.
  pose proof (radius_only_in_pa Q line_distance heap3 (list addr) scan_tree
                (scan_tree_nearest heap3) (ProximityJoin8Spec.scan_contract heap3))
    as (Hpa & _ & Hpa8).
  split; [|split].
  - apply (Hpa 6000 [0; 100]). intros m [<-|[<-|[]]]; reflexivity.
  - vm_compute. left. reflexivity.
  - destruct (Hpa8 [GeomPoint 6000] [0%nat] 0%nat 6000) as (i & a & Hrow & _).
    + discriminate.
    + reflexivity.
    + exists i, a. exact Hrow.
Defined.

End RadiusSpec.

Module FreshRun.
Import ProximityJoin8.
Local Open Scope nat_scope.

Lemma concat_blocks {A} (size n : nat) (l : list A) :
  0 < size -> length l <= n * size ->
  concat (map (fun k => take size (drop (k * size) l)) (seq 0 n)) = l.
Proof.
  intros Hs. revert l. induction n as [|n IH]; intros l Hlen.
  - destruct l; [reflexivity | simpl in Hlen; lia].
  - cbn [seq map concat]. rewrite <- seq_shift, map_map.
    rewrite (map_ext _ (fun k => take size (drop (k * size) (drop size l)))).
    + rewrite IH; [apply take_drop|]. rewrite length_drop. lia.
    + intros k. rewrite drop_drop. reflexivity.
Qed.

Lemma list_sum_cons (a : nat) (l : list nat) : list_sum (a :: l) = a + list_sum l.
Proof. reflexivity. Qed.

Lemma py_range_from_0 (stop step : nat) :
  0 < step ->
  py_range 0 stop step = map (fun k => k * step) (seq 0 ((stop + step - 1) / step)) /\
  stop <= (stop + step - 1) / step * step.
Proof.
  intros Hs. split.
  - unfold py_range. rewrite Nat.sub_0_r. reflexivity.
  - pose proof (Nat.div_mod_eq (stop + step - 1) step) as Hdm.
    pose proof (Nat.mod_upper_bound (stop + step - 1) step ltac:(lia)) as Hlt.
    nia.
Qed.

Section Fresh.

Context {geometry : Type} (distance : geometry -> geometry -> Q)
        (deref : addr -> geometry) {strtree : Type}
        (STRtree : list addr -> option strtree)
        (tree_nearest : strtree -> geometry -> option addr).
Variables (size : nat) (joblib_ok : bool) (n_jobs : nat).
Hypothesis size_pos : 0 < size.

Local Abbreviation stepf :=
  (step geometry distance deref strtree STRtree tree_nearest size joblib_ok n_jobs).

(** The chunks cut from row 0 make up the frame. *)
Lemma chunks_cover (chem : list (chem_row geometry)) :
  concat (chunks geometry size 0 chem) = chem.
Proof.
  unfold chunks. destruct (py_range_from_0 (length chem) size size_pos) as [-> Hle].
  rewrite map_map. now apply concat_blocks.
Qed.

Lemma count_rec_app (r : N) (a b : list (chem_row geometry)) :
  count_rec r (a ++ b) = count_rec r a + count_rec r b.
Proof. unfold count_rec. now rewrite List.filter_app, length_app. Qed.

Lemma count_rec_concat (r : N) (cs : list (list (chem_row geometry))) :
  count_rec r (concat cs) = list_sum (map (count_rec r) cs).
Proof.
  induction cs as [|c cs IH]; [reflexivity|].
  simpl. now rewrite count_rec_app, IH.
Qed.

(** *** One iteration *)

Lemma occurrences_append (r : N) (name : string) (df : list out_row) (fs : files) :
  occurrences r name (append_to_output df fs)
  = occurrences r name fs
    + length (List.filter (fun o => N.eqb (out_rec o) r
                                    && String.eqb (out_layer o) name) df).
Proof.
  unfold occurrences, append_to_output. simpl.
  destruct (out_path fs) as [rows|]; [|reflexivity].
  now rewrite List.filter_app, length_app.
Qed.

Lemma hits_out_chunk (r : N) (name name' : string)
    (chunk : list (chem_row geometry)) (rows : list near_row) :
  length rows = length chunk ->
  length (List.filter (fun o => N.eqb (out_rec o) r && String.eqb (out_layer o) name)
            (zip_with (fun c nr => {| out_rec := rec_id c; out_layer := name';
                                      out_near := nr |}) chunk rows))
  = if String.eqb name' name then count_rec r chunk else 0.
Proof.
  revert rows. unfold count_rec.
  induction chunk as [|c chunk IH]; intros [|nr rows] Hlen; simpl in *;
    try discriminate.
  - now destruct (String.eqb name' name).
  - specialize (IH rows ltac:(lia)).
    destruct (String.eqb name' name), (N.eqb (rec_id c) r); simpl; lia.
Qed.

Lemma exists_write (n n' : string) (o o' : nat) (fs : files) :
  checkpoint_exists n o (write_checkpoint n' o' fs)
  = (String.eqb n' n && (o' =? o)) || checkpoint_exists n o fs.
Proof.
  unfold checkpoint_exists, write_checkpoint. simpl.
  rewrite existsb_app. simpl. rewrite orb_false_r.
  destruct (String.eqb n' n && (o' =? o)) eqn:Hsame.
  - simpl. apply orb_true_r.
  - simpl. rewrite orb_false_r.
    induction (checkpoint_dir fs) as [|f dir IH]; [reflexivity|]. simpl.
    destruct (String.eqb (ck_name f) n' && (ck_offset f =? o')) eqn:Hf; simpl.
    + rewrite IH.
      destruct (String.eqb (ck_name f) n && (ck_offset f =? o)) eqn:Hg; [|reflexivity].
      exfalso. apply andb_true_iff in Hf, Hg.
      destruct Hf as [Hf1 Hf2], Hg as [Hg1 Hg2].
      apply String.eqb_eq in Hf1, Hg1. apply Nat.eqb_eq in Hf2, Hg2.
      subst. rewrite String.eqb_refl, Nat.eqb_refl in Hsame. discriminate.
    + now rewrite IH.
Qed.

Lemma step_fresh (r : N) (name : string) (fs : files)
    (name' : string) (gdf : list addr) (i : nat) (chunk : list (chem_row geometry)) :
  checkpoint_exists name' (i * size) fs = false ->
  occurrences r name (stepf fs (name', gdf, i, chunk))
  = occurrences r name fs + (if String.eqb name' name then count_rec r chunk else 0) /\
  forall n o, checkpoint_exists n o (stepf fs (name', gdf, i, chunk))
              = (String.eqb name' n && (i * size =? o)) || checkpoint_exists n o fs.
Proof.
  intros Hfresh. unfold step, process_chunk. rewrite Hfresh. split.
  - rewrite occurrences_append, hits_out_chunk; [reflexivity|].
    rewrite SplitSpec.merged_length. apply length_map.
  - intros n o. apply exists_write.
Qed.

(** *** A run of iterations whose checkpoints are all new *)

Lemma fold_fresh (r : N) (name : string)
    (its : list (string * list addr * nat * list (chem_row geometry))) (fs : files) :
  List.NoDup (map (fun '(n, _, i, _) => (n, i)) its) ->
  (forall n g i c, In (n, g, i, c) its -> checkpoint_exists n (i * size) fs = false) ->
  occurrences r name (fold_left stepf its fs)
  = occurrences r name fs
    + list_sum (map (fun '(n, _, _, c) =>
                       if String.eqb n name then count_rec r c else 0) its).
Proof.
  revert fs. induction its as [|[[[n g] i] c] rest IH]; intros fs Hnd Hfresh.
  - simpl. lia.
  - cbn [fold_left map]. rewrite list_sum_cons.
    inversion Hnd as [|k ks Hnin Hnd' Heq]; subst.
    destruct (step_fresh r name fs n g i c) as [Hocc Hex].
    { apply (Hfresh n g i c). now left. }
    rewrite IH; [rewrite Hocc; lia | exact Hnd' |].
    intros n' g' i' c' Hin. rewrite Hex.
    rewrite (Hfresh n' g' i' c') by (now right). rewrite orb_false_r.
    apply andb_false_iff.
    destruct (String.eqb n n') eqn:En; [right | now left].
    apply String.eqb_eq in En. subst n'. apply Nat.eqb_neq. intros E.
    assert (i = i') by nia. subst i'. apply Hnin.
    apply (in_map (fun '(n, _, i, _) => (n, i))) in Hin. exact Hin.
Qed.

(** *** The iterations of the nested loops *)

Lemma enumerate_keys (name : string) (gdf : list addr) (k : nat)
    (cs : list (list (chem_row geometry))) :
  map (fun '(n, _, i, _) => (n, i))
    (map (fun '(i, chunk) => (name, gdf, i, chunk)) (enumerate_from k cs))
  = map (fun i => (name, i)) (seq k (length cs)).
Proof.
  revert k. induction cs as [|c cs IH]; intros k; [reflexivity|].
  simpl. f_equal. apply IH.
Qed.

Lemma enumerate_sum (r : N) (name name' : string) (gdf : list addr) (k : nat)
    (cs : list (list (chem_row geometry))) :
  list_sum (map (fun '(n, _, _, c) => if String.eqb n name then count_rec r c else 0)
              (map (fun '(i, chunk) => (name', gdf, i, chunk))
                   (enumerate_from k cs)))
  = if String.eqb name' name then count_rec r (concat cs) else 0.
Proof.
  revert k. induction cs as [|c cs IH]; intros k.
  - simpl. now destruct (String.eqb name' name).
  - cbn [enumerate_from map concat]. rewrite list_sum_cons, IH, count_rec_app.
    now destruct (String.eqb name' name).
Qed.

Lemma iterations_names (start : nat) (chem : list (chem_row geometry))
    (layers : list (string * list addr)) (n : string) (i : nat) :
  In (n, i) (map (fun '(n, _, i, _) => (n, i))
               (iterations geometry size start chem layers)) ->
  In n (map fst layers).
Proof.
  unfold iterations. induction layers as [|[name gdf] rest IH]; [intros []|].
  cbn [flat_map]. rewrite map_app, in_app_iff. intros [Hin|Hin].
  - left. destruct gdf as [|a gdf]; [destruct Hin|].
    rewrite enumerate_keys in Hin. apply in_map_iff in Hin.
    destruct Hin as (j & [= <- _] & _). reflexivity.
  - right. now apply IH.
Qed.

Lemma iterations_NoDup (start : nat) (chem : list (chem_row geometry))
    (layers : list (string * list addr)) :
  List.NoDup (map fst layers) ->
  List.NoDup (map (fun '(n, _, i, _) => (n, i))
                (iterations geometry size start chem layers)).
Proof.
  induction layers as [|[name gdf] rest IH]; intros Hnd; [constructor|].
  inversion Hnd as [|k ks Hnin Hnd' Heq]; subst.
  unfold iterations. cbn [flat_map]. rewrite map_app.
  apply List.NoDup_app.
  - destruct gdf as [|a gdf]; [constructor|].
    rewrite enumerate_keys. apply List.NoDup_map_inv with (f := snd).
    rewrite map_map. simpl. rewrite map_id. apply List.seq_NoDup.
  - now apply IH.
  - intros [n i] Hin Hin'. apply Hnin.
    apply iterations_names in Hin'.
    destruct gdf as [|a gdf]; [destruct Hin|].
    rewrite enumerate_keys in Hin. apply in_map_iff in Hin.
    destruct Hin as (j & [= <- _] & _). exact Hin'.
Qed.

Lemma iterations_sum (r : N) (name : string) (start : nat)
    (chem : list (chem_row geometry)) (layers : list (string * list addr)) :
  List.NoDup (map fst layers) ->
  list_sum (map (fun '(n, _, _, c) => if String.eqb n name then count_rec r c else 0)
              (iterations geometry size start chem layers))
  = match List.find (fun l => String.eqb (fst l) name) layers with
    | Some (_, _ :: _) => count_rec r (concat (chunks geometry size start chem))
    | _ => 0
    end.
Proof.
  induction layers as [|[name' gdf] rest IH]; intros Hnd; [reflexivity|].
  inversion Hnd as [|k ks Hnin Hnd' Heq]; subst.
  unfold iterations. cbn [flat_map List.find fst].
  rewrite map_app, list_sum_app. fold (iterations geometry size start chem rest).
  rewrite (IH Hnd').
  destruct (String.eqb name' name) eqn:En.
  - apply String.eqb_eq in En. subst name'.
    assert (Hnone : List.find (fun l => String.eqb (fst l) name) rest = None).
    { destruct (List.find _ rest) as [[n g]|] eqn:Hf; [|reflexivity].
      apply find_some in Hf. destruct Hf as [Hin E]. simpl in E.
      apply String.eqb_eq in E. subst n. exfalso. apply Hnin.
      apply (in_map fst) in Hin. exact Hin. }
    rewrite Hnone. destruct gdf as [|a gdf]; [reflexivity|].
    rewrite enumerate_sum, String.eqb_refl. lia.
  - destruct gdf as [|a gdf]; [reflexivity|].
    rewrite enumerate_sum, En. reflexivity.
Qed.

(** A run that is not interrupted, started where the newest checkpoint
    (if any) carries offset 0 and no output file exists: every layer with
    features holds each record as often as the chemistry frame does. *)
Lemma fresh_run_occurrences (chem : list (chem_row geometry))
    (layers : list (string * list addr)) (fs : files)
    (r : N) (name : string) (a : addr) (gdf : list addr) :
  latest_checkpoint fs = 0 -> out_path fs = None ->
  List.NoDup (map fst layers) -> In (name, a :: gdf) layers ->
  occurrences r name
    (run_main geometry distance deref strtree STRtree tree_nearest
       size joblib_ok n_jobs chem layers fs)
  = count_rec r chem.
Proof.
  intros Hlatest Hout Hnd Hin.
  unfold run_main, resume_or_reset. rewrite Hlatest. cbn [Nat.ltb Nat.leb].
  change (occurrences r name
            (fold_left stepf (iterations geometry size 0 chem layers)
               (reset_checkpoints fs)) = count_rec r chem).
  rewrite fold_fresh.
  - rewrite iterations_sum by exact Hnd.
    assert (Hf : List.find (fun l => String.eqb (fst l) name) layers
                 = Some (name, a :: gdf)).
    { clear - Hnd Hin. induction layers as [|[n g] rest IH]; [destruct Hin|].
      inversion Hnd as [|k ks Hnin Hnd' Heq]; subst. simpl.
      destruct Hin as [[= -> ->]|Hin].
      - now rewrite String.eqb_refl.
      - destruct (String.eqb n name) eqn:En; [|now apply IH].
        apply String.eqb_eq in En. subst n. exfalso. apply Hnin.
        apply (in_map fst) in Hin. exact Hin. }
    rewrite Hf, chunks_cover.
    unfold occurrences, reset_checkpoints. simpl. rewrite Hout. reflexivity.
  - now apply iterations_NoDup.
  - intros. reflexivity.
Qed.

End Fresh.
End FreshRun.

Module CheckpointSpec.
Import ProximityJoin8.
Local Open Scope nat_scope.

Section Loop.

Context {geometry : Type} (distance : geometry -> geometry -> Q)
        (deref : addr -> geometry) {strtree : Type}
        (STRtree : list addr -> option strtree)
        (tree_nearest : strtree -> geometry -> option addr).

(** A chunk whose checkpoint file exists is skipped: no file changes. *)
Lemma process_chunk_skips (size : nat) (joblib_ok : bool) (n_jobs : nat)
    (name : string) (gdf : list addr) (i : nat)
    (chunk : list (chem_row geometry)) (fs : files) :
  checkpoint_exists name (i * size) fs = true ->
  process_chunk geometry distance deref strtree STRtree tree_nearest
    size joblib_ok n_jobs name gdf i chunk fs = fs.
Proof. unfold process_chunk. intros ->. reflexivity. Qed.

End Loop.

(** C4, the resumed run.  90000 records, three chunks; the first run is
    killed after the second chunk of the first layer.  The second run
    finds checkpoint 30000 and resumes: it cuts its chunks from row 30000
    on but names their checkpoints from 0, so it takes the chunk of rows
    60000.. for done, and it starts every later layer at row 30000 too.
    In the final output record 60000 is missing for AML and record 0 is
    missing for Bituminous. *)
Theorem resume_loses_records :
  let chem := chem_from 90000 0 in
  let interrupted := sample_killed_run 2 chem no_files in
  let final := sample_run_main chem interrupted in
  (latest_checkpoint interrupted =? 30000) = true /\
  occurrences 0 "AML" final = 1 /\
  occurrences 30000 "AML" final = 1 /\
  occurrences 60000 "AML" final = 0 /\
  occurrences 0 "Bituminous" final = 0 /\
  occurrences 30000 "Bituminous" final = 1 /\
  occurrences 60000 "Bituminous" final = 1.
Proof. vm_compute. repeat split; reflexivity. Qed.

(** The restarted run.  The first run is killed after its first chunk;
    the newest checkpoint then carries offset 0, the second run starts
    fresh and appends to the output file the first run left: the records
    of that chunk are in the output twice. *)
Lemma restart_duplicates_records :
  let chem := chem_from 90000 0 in
  let interrupted := sample_killed_run 1 chem no_files in
  let final := sample_run_main chem interrupted in
  (latest_checkpoint interrupted =? 0) = true /\
  occurrences 0 "AML" final = 2 /\
  occurrences 30000 "AML" final = 1.
Proof. vm_compute. repeat split; reflexivity. Qed.

(** The run that is not interrupted, from no files: once per layer with
    features, never for the empty layer. *)
Example fresh_run_once :
  let final := sample_run_main (chem_from 90000 0) no_files in
  occurrences 0 "AML" final = 1 /\
  occurrences 89999 "AML" final = 1 /\
  occurrences 45000 "Bituminous" final = 1 /\
  occurrences 45000 "Anthracite" final = 0.
Proof. vm_compute. repeat split; reflexivity. Qed.

End CheckpointSpec.

Module SummarySpec.
Import ProximityJoinPa.

Lemma idxmin_go_spec (l : site_row) (best : string * Q) :
  let r := idxmin_go best l in
  (r = best \/ In (fst r, Some (snd r)) l) /\
  snd r <= snd best /\
  (forall c d, In (c, Some d) l -> snd r <= d).
Proof.
  revert best. induction l as [|[c [x|]] rest IH]; intros best; simpl.
  - split; [now left|]. split; [apply Qle_refl|]. intros c d [].
  - destruct (Qlt_le_dec x (snd best)) as [Hlt|Hle].
    + destruct (IH (c, x)) as (Hin & Hb & Hall). simpl in *. split; [|split].
      * destruct Hin as [->|Hin]; [right; left; reflexivity | right; right; exact Hin].
      * apply Qle_trans with x; [exact Hb | apply Qlt_le_weak, Hlt].
      * intros c' d [[= <- <-]|Hin']; [exact Hb | apply (Hall c' d Hin')].
    + destruct (IH best) as (Hin & Hb & Hall). split; [|split].
      * destruct Hin as [->|Hin]; [now left | right; right; exact Hin].
      * exact Hb.
      * intros c' d [[= <- <-]|Hin'];
          [apply Qle_trans with (snd best); assumption | apply (Hall c' d Hin')].
  - destruct (IH best) as (Hin & Hb & Hall). split; [|split].
    + destruct Hin as [->|Hin]; [now left | right; right; exact Hin].
    + exact Hb.
    + intros c' d [[=]|Hin']. apply (Hall c' d Hin').
Qed.

Lemma idxmin_spec (l : site_row) :
  (exists c d, In (c, Some d) l) ->
  exists t x, idxmin l = Some t /\ In (t, Some x) l /\
              forall c d, In (c, Some d) l -> x <= d.
Proof.
  induction l as [|[c [x|]] rest IH]; intros (c0 & d0 & Hin).
  - destruct Hin.
  - simpl. pose proof (idxmin_go_spec rest (c, x)) as (Hr & Hb & Hall).
    simpl in *. exists (fst (idxmin_go (c, x) rest)), (snd (idxmin_go (c, x) rest)).
    split; [reflexivity|]. split.
    + destruct Hr as [->|Hr]; [left; reflexivity | right; exact Hr].
    + intros c' d [[= <- <-]|Hin']; [exact Hb | apply (Hall c' d Hin')].
  - destruct Hin as [[=]|Hin].
    destruct (IH (ex_intro _ c0 (ex_intro _ d0 Hin))) as (t & x & Ht & Hin' & Hall).
    exists t, x. split; [exact Ht|]. split; [right; exact Hin'|].
    intros c' d [[=]|Hin'']. apply (Hall c' d Hin'').
Qed.

Lemma row_min_spec (l : site_row) :
  (exists c d, In (c, Some d) l) ->
  exists m, row_min l = Some m /\
            (exists c d, In (c, Some d) l /\ d == m) /\
            forall c d, In (c, Some d) l -> m <= d.
Proof.
  induction l as [|[c [x|]] rest IH]; intros (c0 & d0 & Hin).
  - destruct Hin.
  - simpl. destruct (row_min rest) as [m|] eqn:Hrest.
    + assert (Hex : exists c d, In (c, Some d) rest).
      { clear - Hrest. induction rest as [|[c' [y|]] rest IH]; simpl in Hrest.
        - discriminate.
        - exists c', y. now left.
        - destruct (IH Hrest) as (c1 & d1 & H1). exists c1, d1. now right. }
      destruct (IH Hex) as (m' & [= <-] & (c1 & d1 & Hin1 & Heq1) & Hall).
      exists (Qmin x m). split; [reflexivity|]. split.
      * destruct (Q.min_spec x m) as [[_ Hm]|[_ Hm]].
        -- exists c, x. split; [now left | now rewrite Hm].
        -- exists c1, d1. split; [now right | now rewrite Hm].
      * intros c' d [[= <- <-]|Hin'].
        -- apply Q.le_min_l.
        -- apply Qle_trans with m; [apply Q.le_min_r | apply (Hall c' d Hin')].
    + exists x. split; [reflexivity|]. split.
      * exists c, x. split; [now left | reflexivity].
      * intros c' d [[= <- <-]|Hin']; [apply Qle_refl|].
        exfalso. clear - Hrest Hin'.
        induction rest as [|[c1 [y|]] rest IH]; simpl in *.
        -- destruct Hin'.
        -- destruct (row_min rest); discriminate.
        -- destruct Hin' as [[=]|Hin']. apply (IH Hrest Hin').
  - destruct Hin as [[=]|Hin].
    destruct (IH (ex_intro _ c0 (ex_intro _ d0 Hin)))
      as (m & Hm & (c1 & d1 & Hin1 & Heq1) & Hall).
    exists m. split; [exact Hm|]. split.
    + exists c1, d1. split; [now right | exact Heq1].
    + intros c' d [[=]|Hin']. apply (Hall c' d Hin').
Qed.

(** Dropping [_dist_m] from the distance column of a configured layer
    gives the layer's name back. *)
Lemma str_remove_dist_col (name : string) :
  In name LAYER_NAMES -> str_remove "_dist_m" (dist_col name) = name.
Proof.
  intros [<-|[<-|[<-|[<-|[]]]]]; reflexivity.
Qed.

Lemma dist_cells_In (row : site_row) (c : string) (v : cell) :
  In (c, v) (dist_cells row) <-> In (c, v) row /\ endswith c "_dist_m" = true.
Proof. unfold dist_cells. rewrite filter_In. reflexivity. Qed.

(** C5: for a site row whose distance columns are those of the
    configured layers and hold at least one value, [nearest_mine_dist_m]
    is the least of the values of the distance columns, and
    [nearest_mine_type] is the name of a layer whose distance column
    holds that least value: the column's label without [_dist_m]. *)
Theorem nearest_mine_summary (row : site_row)
    (Hcols : forall c v, In (c, v) row -> endswith c "_dist_m" = true ->
                         exists name, In name LAYER_NAMES /\ c = dist_col name)
    (Hsome : exists c d, In (c, Some d) row /\ endswith c "_dist_m" = true) :
  exists (m : Q) (t : string),
    nearest_mine_dist_m row = Some m /\
    (forall c d, In (c, Some d) row -> endswith c "_dist_m" = true -> m <= d) /\
    nearest_mine_type row = Some t /\
    In t LAYER_NAMES /\
    exists d, In (dist_col t, Some d) row /\ d == m.
Proof.
  assert (Hex : exists c d, In (c, Some d) (dist_cells row)).
  { destruct Hsome as (c & d & Hin & He). exists c, d. now apply dist_cells_In. }
  destruct (row_min_spec _ Hex) as (m & Hm & (c1 & d1 & Hin1 & Heq1) & Hmin).
  destruct (idxmin_spec _ Hex) as (col & x & Hcol & Hinx & Hminx).
  apply dist_cells_In in Hinx. destruct Hinx as [Hinx Hend].
  destruct (Hcols col (Some x) Hinx Hend) as (name & Hname & ->).
  exists m, name. split; [exact Hm|]. split; [|split; [|split]].
  - intros c d Hin He. apply (Hmin c d). now apply dist_cells_In.
  - unfold nearest_mine_type. rewrite Hcol. simpl.
    now rewrite str_remove_dist_col.
  - exact Hname.
  - exists x. split; [exact Hinx|].
    apply Qle_antisym.
    + rewrite <- Heq1. apply (Hminx c1 d1 Hin1).
    + apply (Hmin (dist_col name) x). now apply dist_cells_In.
Qed.

Lemma nearest_mine_summary_witness :
  exists (m : Q) (t : string),
    nearest_mine_dist_m sample_site = Some m /\
    (forall c d, In (c, Some d) sample_site -> endswith c "_dist_m" = true -> m <= d) /\
    nearest_mine_type sample_site = Some t /\
    In t LAYER_NAMES /\
    exists d, In (dist_col t, Some d) sample_site /\ d == m.
Proof.
  apply (nearest_mine_summary sample_site).
  - intros c v [H|[H|[H|[H|[H|[]]]]]]; injection H as <- <-; intros He;
      try discriminate He.
    + exists "anthracite_surface"%string. split; [simpl; tauto | reflexivity].
    + exists "bituminous_surface"%string. split; [simpl; tauto | reflexivity].
    + exists "aml_inventory"%string. split; [simpl; tauto | reflexivity].
  - exists "aml_inventory_dist_m"%string, 45. split; [simpl; tauto | reflexivity].
Defined.

Example nearest_mine_sample :
  nearest_mine_type sample_site = Some "aml_inventory"%string /\
  nearest_mine_dist_m sample_site = Some 45.
Proof. split; reflexivity. Qed.

(** [str.replace] drops every occurrence, not only the suffix. *)
Example str_remove_inner :
  str_remove "_dist_m" "a_dist_m_b_dist_m" = "a_b"%string.
Proof. reflexivity. Qed.

End SummarySpec.

Module NormSpec.
Import WatershedHealth.

(** *** Minimum and maximum of a series *)

Lemma series_min_spec (l : list Q) (x : Q) :
  (forall y, In y (x :: l) -> series_min x l <= y) /\
  (exists y, In y (x :: l) /\ y == series_min x l).
Proof.
  revert x. induction l as [|z rest IH]; intros x; simpl.
  - split.
    + intros y [<-|[]]. apply Qle_refl.
    + exists x. split; [now left | reflexivity].
  - destruct (IH z) as [Hle (w & Hw & Heq)]. split.
    + intros y [<-|Hin]; [apply Q.le_min_l|].
      apply Qle_trans with (series_min z rest); [apply Q.le_min_r | now apply Hle].
    + destruct (Q.min_spec x (series_min z rest)) as [[_ Hm]|[_ Hm]].
      * exists x. split; [now left | now rewrite Hm].
      * exists w. split; [now right | now rewrite Hm].
Qed.

Lemma series_max_spec (l : list Q) (x : Q) :
  (forall y, In y (x :: l) -> y <= series_max x l) /\
  (exists y, In y (x :: l) /\ y == series_max x l).
Proof.
  revert x. induction l as [|z rest IH]; intros x; simpl.
  - split.
    + intros y [<-|[]]. apply Qle_refl.
    + exists x. split; [now left | reflexivity].
  - destruct (IH z) as [Hle (w & Hw & Heq)]. split.
    + intros y [<-|Hin]; [apply Q.le_max_l|].
      apply Qle_trans with (series_max z rest); [now apply Hle | apply Q.le_max_r].
    + destruct (Q.max_spec x (series_max z rest)) as [[_ Hm]|[_ Hm]].
      * exists w. split; [now right | now rewrite Hm].
      * exists x. split; [now left | now rewrite Hm].
Qed.

Lemma dropna_In (series : list cell) (x : Q) :
  In x (dropna series) <-> In (Some x) series.
Proof.
  induction series as [|[y|] rest IH]; simpl.
  - reflexivity.
  - rewrite IH. split; intros [H|H]; auto; left; congruence.
  - rewrite IH. split; [auto | intros [H|H]; [discriminate | exact H]].
Qed.

Lemma dropna_nil (series : list cell) :
  dropna series = [] <-> forall c, In c series -> c = None.
Proof.
  split.
  - intros Hnil [x|] Hin; [|reflexivity].
    apply dropna_In in Hin. rewrite Hnil in Hin. destruct Hin.
  - intros Hall. destruct (dropna series) as [|x rest] eqn:Hd; [reflexivity|].
    assert (Hin : In x (dropna series)) by (rewrite Hd; now left).
    apply dropna_In in Hin. apply Hall in Hin. discriminate.
Qed.

(** *** Division *)

Lemma float_div_some (a b v : Q) :
  float_div a b = Some v <-> ~ b == 0 /\ v = a / b.
Proof.
  unfold float_div. destruct (Qeq_bool b 0) eqn:Hb.
  - apply Qeq_bool_iff in Hb. split; [discriminate | intros [Hn _]; contradiction].
  - apply Qeq_bool_neq in Hb. split.
    + intros [= <-]. split; [exact Hb | reflexivity].
    + intros [_ ->]. reflexivity.
Qed.

Lemma div_unit_range (a b : Q) : 0 <= a -> a <= b -> 0 < b -> 0 <= a / b <= 1.
Proof.
  intros Ha Hab Hb. split.
  - apply Qle_shift_div_l; [exact Hb|]. now rewrite Qmult_0_l.
  - apply Qle_shift_div_r; [exact Hb|]. now rewrite Qmult_1_l.
Qed.

Lemma div_monotone (a b d : Q) : a <= b -> 0 < d -> a / d <= b / d.
Proof.
  intros Hab Hd. unfold Qdiv. apply Qmult_le_compat_r; [exact Hab|].
  apply Qinv_le_0_compat, Qlt_le_weak, Hd.
Qed.

(** *** [safe_norm] entry by entry *)

Lemma min_le_max (v : Q) (vs : list Q) : series_min v vs <= series_max v vs.
Proof.
  destruct (series_min_spec vs v) as [Hmin _].
  destruct (series_max_spec vs v) as [Hmax _].
  apply Qle_trans with v; [apply Hmin | apply Hmax]; now left.
Qed.

Lemma shape_cases (series : list cell) : shape series.
Proof.
  destruct (dropna series) as [|v vs] eqn:Hd; [now apply AllNull|].
  destruct (Qlt_le_dec (series_min v vs) (series_max v vs)) as [Hlt|Hle].
  - now apply Spread with v vs.
  - apply Constant with v vs; [exact Hd|].
    pose proof (min_le_max v vs). lra.
Qed.

Lemma safe_norm_length (series : list cell) :
  length (safe_norm series) = length series.
Proof. unfold safe_norm. destruct (dropna series); apply length_map. Qed.

Lemma safe_norm_null (series : list cell) (i : nat) :
  series !! i = Some None -> safe_norm series !! i = Some None.
Proof.
  intros Hi. unfold safe_norm.
  destruct (dropna series); rewrite list_lookup_fmap, Hi; reflexivity.
Qed.

Lemma safe_norm_all_null (series : list cell) :
  dropna series = [] -> forall c, In c (safe_norm series) -> c = None.
Proof.
  intros Hd c. unfold safe_norm. rewrite Hd. rewrite in_map_iff.
  intros (c' & <- & _). reflexivity.
Qed.

Lemma safe_norm_constant (series : list cell) (v : Q) (vs : list Q) :
  dropna series = v :: vs -> series_max v vs - series_min v vs == 0 ->
  forall c, In c (safe_norm series) -> c = None.
Proof.
  intros Hd Hz c. unfold safe_norm. rewrite Hd. cbn zeta. rewrite in_map_iff.
  intros ([x|] & <- & _); [|reflexivity].
  unfold float_div. apply Qeq_bool_iff in Hz. rewrite Hz. reflexivity.
Qed.

Lemma safe_norm_spread (series : list cell) (v : Q) (vs : list Q) (i : nat) (x : Q) :
  dropna series = v :: vs -> series_min v vs < series_max v vs ->
  series !! i = Some (Some x) ->
  safe_norm series !! i
  = Some (Some ((x - series_min v vs) / (series_max v vs - series_min v vs))) /\
  series_min v vs <= x <= series_max v vs.
Proof.
  intros Hd Hlt Hi. split.
  - unfold safe_norm. rewrite Hd. cbn zeta. rewrite list_lookup_fmap, Hi. simpl.
    unfold float_div.
    destruct (Qeq_bool (series_max v vs - series_min v vs) 0) eqn:Hz; [|reflexivity].
    apply Qeq_bool_iff in Hz. lra.
  - assert (Hin : In x (v :: vs)).
    { rewrite <- Hd. apply dropna_In. apply list_elem_of_In.
      apply list_elem_of_lookup. eauto. }
    destruct (series_min_spec vs v) as [Hmin _].
    destruct (series_max_spec vs v) as [Hmax _].
    split; [now apply Hmin | now apply Hmax].
Qed.

(** A non-null output comes from a spread series and a non-null input. *)
Lemma safe_norm_some (series : list cell) (i : nat) (nx : Q) :
  safe_norm series !! i = Some (Some nx) ->
  exists v vs x,
    dropna series = v :: vs /\ series_min v vs < series_max v vs /\
    series !! i = Some (Some x) /\
    nx = (x - series_min v vs) / (series_max v vs - series_min v vs) /\
    series_min v vs <= x <= series_max v vs.
Proof.
  intros Hn.
  assert (Hlen : (i < length series)%nat).
  { rewrite <- safe_norm_length. apply lookup_lt_Some in Hn. exact Hn. }
  destruct (lookup_lt_is_Some_2 series i Hlen) as ([x|] & Hi).
  - destruct (shape_cases series) as [Hd|v vs Hd Hz|v vs Hd Hlt].
    + exfalso. assert (Hin : In (Some nx) (safe_norm series)).
      { apply list_elem_of_In, list_elem_of_lookup. eauto. }
      apply (safe_norm_all_null series Hd) in Hin. discriminate.
    + exfalso. assert (Hin : In (Some nx) (safe_norm series)).
      { apply list_elem_of_In, list_elem_of_lookup. eauto. }
      apply (safe_norm_constant series v vs Hd Hz) in Hin. discriminate.
    + destruct (safe_norm_spread series v vs i x Hd Hlt Hi) as [Hs Hr].
      rewrite Hs in Hn. injection Hn as <-.
      exists v, vs, x. repeat split; try assumption; apply Hr.
  - rewrite (safe_norm_null series i Hi) in Hn. discriminate.
Qed.

Lemma safe_norm_range (series : list cell) (i : nat) (nx : Q) :
  safe_norm series !! i = Some (Some nx) -> 0 <= nx <= 1.
Proof.
  intros Hn. destruct (safe_norm_some series i nx Hn)
    as (v & vs & x & _ & Hlt & _ & -> & Hlo & Hhi).
  apply div_unit_range; lra.
Qed.

End NormSpec.

Module IndexSpec.
Import WatershedHealth NormSpec.

Lemma lookup_In {A} (l : list A) (i : nat) (x : A) : l !! i = Some x -> In x l.
Proof. intros H. apply list_elem_of_In, list_elem_of_lookup. eauto. Qed.

Lemma In_lookup {A} (l : list A) (x : A) : In x l -> exists i, l !! i = Some x.
Proof. intros H. apply list_elem_of_In, list_elem_of_lookup in H. exact H. Qed.

(** A series without two distinct values: all-null or constant. *)
Lemma safe_norm_degenerate (series : list cell) :
  (forall x y, In (Some x) series -> In (Some y) series -> x == y) ->
  forall c, In c (safe_norm series) -> c = None.
Proof.
  intros Heq. destruct (shape_cases series) as [Hd|v vs Hd Hz|v vs Hd Hlt].
  - now apply safe_norm_all_null.
  - now apply safe_norm_constant with v vs.
  - exfalso.
    destruct (series_min_spec vs v) as [_ (lo & Hlo & Elo)].
    destruct (series_max_spec vs v) as [_ (hi & Hhi & Ehi)].
    rewrite <- Hd in Hlo, Hhi. apply dropna_In in Hlo, Hhi.
    pose proof (Heq lo hi Hlo Hhi) as E. rewrite Elo, Ehi in E. lra.
Qed.

Lemma two_values_spread (series : list cell) :
  (exists x y, In (Some x) series /\ In (Some y) series /\ ~ x == y) ->
  exists v vs, dropna series = v :: vs /\ series_min v vs < series_max v vs.
Proof.
  intros (x & y & Hx & Hy & Hne).
  destruct (shape_cases series) as [Hd|v vs Hd Hz|v vs Hd Hlt].
  - apply dropna_In in Hx. rewrite Hd in Hx. destruct Hx.
  - exfalso. apply Hne.
    apply dropna_In in Hx, Hy. rewrite Hd in Hx, Hy.
    destruct (series_min_spec vs v) as [Hmin _].
    destruct (series_max_spec vs v) as [Hmax _].
    pose proof (Hmin x Hx). pose proof (Hmin y Hy).
    pose proof (Hmax x Hx). pose proof (Hmax y Hy). lra.
  - eauto.
Qed.

(** *** The row mean *)

Lemma Qsum_unit_range (l : list Q) :
  (forall x, In x l -> 0 <= x <= 1) ->
  0 <= Qsum l <= inject_Z (Z.of_nat (length l)).
Proof.
  induction l as [|x rest IH]; intros Hall.
  - simpl. split; apply Qle_refl.
  - assert (Hx : 0 <= x <= 1) by (apply Hall; now left).
    assert (Hrest : 0 <= Qsum rest <= inject_Z (Z.of_nat (length rest)))
      by (apply IH; intros y Hy; apply Hall; now right).
    cbn [Qsum length]. rewrite Nat2Z.inj_succ, <- Z.add_1_l, inject_Z_plus.
    change (inject_Z 1) with 1. lra.
Qed.

Lemma mean_skipna_range (cells : list cell) (m : Q) :
  (forall x, In (Some x) cells -> 0 <= x <= 1) ->
  mean_skipna cells = Some m -> 0 <= m <= 1.
Proof.
  intros Hall. unfold mean_skipna.
  destruct (dropna cells) as [|v vs] eqn:Hd; [discriminate|].
  intros [= <-].
  assert (Hr : 0 <= Qsum (v :: vs) <= inject_Z (Z.of_nat (length (v :: vs)))).
  { apply Qsum_unit_range. intros x Hx. apply Hall, dropna_In. now rewrite Hd. }
  apply div_unit_range; try apply Hr.
  change 0 with (inject_Z 0). rewrite <- Zlt_Qlt. simpl length. lia.
Qed.

Lemma mean_skipna_all_null (cells : list cell) :
  (forall c, In c cells -> c = None) -> mean_skipna cells = None.
Proof.
  intros Hall. unfold mean_skipna.
  apply dropna_nil in Hall. now rewrite Hall.
Qed.

Lemma row_at_In (i : nat) (cols : list (list cell)) (c : cell) :
  In c (row_at i cols) -> exists col, In col cols /\ c = List.nth i col None.
Proof.
  unfold row_at. rewrite in_map_iff. intros (col & <- & Hin). eauto.
Qed.

Lemma nth_some_lookup (l : list cell) (i : nat) (x : Q) :
  List.nth i l None = Some x -> l !! i = Some (Some x).
Proof.
  rewrite nth_lookup. destruct (l !! i) as [c|]; simpl; [congruence | discriminate].
Qed.

Lemma chem_score_lookup (chem_cols : list (list cell)) (n i : nat) (c : cell) :
  chem_score chem_cols n !! i = Some c ->
  (i < n)%nat /\ c = mean_skipna (row_at i (norm_cols chem_cols)).
Proof.
  unfold chem_score. rewrite list_lookup_fmap.
  destruct (seq 0 n !! i) as [k|] eqn:Hk; [|discriminate].
  apply lookup_seq in Hk. destruct Hk as [-> Hlt]. simpl.
  intros [= <-]. split; [exact Hlt | reflexivity].
Qed.

Lemma chem_score_range (chem_cols : list (list cell)) (n i : nat) (cs : Q) :
  chem_score chem_cols n !! i = Some (Some cs) -> 0 <= cs <= 1.
Proof.
  intros Hcs. apply chem_score_lookup in Hcs. destruct Hcs as [_ Hm].
  apply (mean_skipna_range (row_at i (norm_cols chem_cols))); [|now symmetry].
  intros x Hx. apply row_at_In in Hx. destruct Hx as (col & Hcol & Hnth).
  unfold norm_cols in Hcol. apply in_map_iff in Hcol.
  destruct Hcol as (raw & <- & _). symmetry in Hnth.
  apply nth_some_lookup in Hnth. apply (safe_norm_range raw i x Hnth).
Qed.

Lemma dist_inv_some (dist : list cell) (i : nat) (di : Q) :
  dist_inv dist !! i = Some (Some di) ->
  exists nd, safe_norm dist !! i = Some (Some nd) /\ di = 1 - nd.
Proof.
  unfold dist_inv. destruct (existsb notna dist).
  - rewrite list_lookup_fmap.
    destruct (safe_norm dist !! i) as [[nd|]|]; simpl; try discriminate.
    intros [= <-]. eauto.
  - rewrite list_lookup_fmap. destruct (dist !! i); discriminate.
Qed.

Lemma dist_inv_degenerate (dist : list cell) :
  (forall x y, In (Some x) dist -> In (Some y) dist -> x == y) ->
  forall c, In c (dist_inv dist) -> c = None.
Proof.
  intros Heq c. unfold dist_inv. destruct (existsb notna dist).
  - rewrite in_map_iff. intros (c' & <- & Hin).
    now rewrite (safe_norm_degenerate dist Heq c' Hin).
  - rewrite in_map_iff. intros (c' & <- & _). reflexivity.
Qed.

Lemma Sickness_Index_lookup (chem_cols : list (list cell)) (dist : list cell)
    (i : nat) (c : cell) :
  Sickness_Index chem_cols dist !! i = Some c ->
  exists cs di,
    chem_score chem_cols (length dist) !! i = Some cs /\
    dist_inv dist !! i = Some di /\ c = weighted cs di.
Proof.
  unfold Sickness_Index. rewrite lookup_zip_with.
  destruct (chem_score chem_cols (length dist) !! i) as [cs|]; [|discriminate].
  destruct (dist_inv dist !! i) as [di|]; [|discriminate].
  simpl. intros [= <-]. eauto.
Qed.

(** C6: at a record whose [chem_score] and [dist_inv] are both non-null,
    [Sickness_Index] is [0.6 * chem_score + 0.4 * dist_inv], where
    [chem_score] is the mean of the record's non-null normalized chemistry
    cells and [dist_inv] is one minus the normalized distance; and that
    value lies between 0 and 1. *)
Theorem Sickness_Index_formula (chem_cols : list (list cell)) (dist : list cell)
    (i : nat) (cs di : Q)
    (Hcs : chem_score chem_cols (length dist) !! i = Some (Some cs))
    (Hdi : dist_inv dist !! i = Some (Some di)) :
  Sickness_Index chem_cols dist !! i = Some (Some ((6 # 10) * cs + (4 # 10) * di)) /\
  0 <= (6 # 10) * cs + (4 # 10) * di <= 1 /\
  mean_skipna (row_at i (map safe_norm chem_cols)) = Some cs /\
  exists nd, safe_norm dist !! i = Some (Some nd) /\ di = 1 - nd.
Proof.
  pose proof (chem_score_range chem_cols (length dist) i cs Hcs) as Hr.
  destruct (dist_inv_some dist i di Hdi) as (nd & Hnd & Edi).
  pose proof (safe_norm_range dist i nd Hnd) as Hrd.
  split; [|split; [|split]].
  - unfold Sickness_Index. rewrite lookup_zip_with, Hcs, Hdi. reflexivity.
  - subst di. lra.
  - apply chem_score_lookup in Hcs. destruct Hcs as [_ Hm]. now symmetry.
  - exists nd. split; assumption.
Qed.

Lemma Sickness_Index_formula_witness :
  Sickness_Index [sample_Fe; sample_analyte; sample_temp] sample_dist !! 1%nat
  = Some (Some ((6 # 10) * (1 # 1) + (4 # 10) * (1 - 10 / 10))) /\
  0 <= (6 # 10) * (1 # 1) + (4 # 10) * (1 - 10 / 10) <= 1 /\
  mean_skipna (row_at 1 (map safe_norm [sample_Fe; sample_analyte; sample_temp])) = Some (1 # 1) /\
  exists nd, safe_norm sample_dist !! 1%nat = Some (Some nd) /\ 1 - 10 / 10 = 1 - nd.
Proof.
  apply (Sickness_Index_formula [sample_Fe; sample_analyte; sample_temp] sample_dist 1
           (1 # 1) (1 - 10 / 10)).
  - reflexivity.
  - reflexivity.
Defined.

(** C8, counterexample: the chemistry column [Fe] is constant, so its
    normalized column is null throughout; yet the row mean skips it,
    takes the other chemistry column, and the index of both records is a
    number. *)
Lemma constant_column_index_not_null :
  (forall x y, In (Some x) sample_Fe -> In (Some y) sample_Fe -> x == y) /\
  safe_norm sample_Fe = [None; None] /\
  exists s0 s1,
    Sickness_Index [sample_Fe; sample_analyte; sample_temp] sample_dist = [Some s0; Some s1] /\
    s0 == 4 # 10 /\ s1 == 6 # 10.
Proof.
  split; [|split].
  - intros x y [[= <-]|[[= <-]|[]]] [[= <-]|[[= <-]|[]]]; reflexivity.
  - reflexivity.
  - eexists _, _. split; [vm_compute; reflexivity|]. split; reflexivity.
Qed.

(** C8, amended: [safe_norm] keeps the length of the series and the
    order of its non-null entries; on a series with two distinct values
    every non-null entry is mapped into [0, 1], a least one to 0 and a
    greatest one to 1; an all-null series gives an all-null series; a
    series whose values are all equal gives an all-null series too (the
    division is 0/0).  Downstream, [Sickness_Index] is null at every
    record when that degenerate series is the distance column, or when
    every chemistry column is degenerate; a constant chemistry column
    beside others is only skipped by the row mean. *)
Theorem safe_norm_properties (series : list cell) :
  length (safe_norm series) = length series /\
  (forall i j x y nx ny,
     series !! i = Some (Some x) -> series !! j = Some (Some y) ->
     safe_norm series !! i = Some (Some nx) ->
     safe_norm series !! j = Some (Some ny) ->
     x <= y -> nx <= ny) /\
  ((exists x y, In (Some x) series /\ In (Some y) series /\ ~ x == y) ->
   forall i x, series !! i = Some (Some x) ->
     exists nx,
       safe_norm series !! i = Some (Some nx) /\ 0 <= nx <= 1 /\
       ((forall y, In (Some y) series -> x <= y) -> nx == 0) /\
       ((forall y, In (Some y) series -> y <= x) -> nx == 1)) /\
  ((forall c, In c series -> c = None) ->
   forall c, In c (safe_norm series) -> c = None) /\
  ((forall x y, In (Some x) series -> In (Some y) series -> x == y) ->
   forall c, In c (safe_norm series) -> c = None) /\
  ((forall x y, In (Some x) series -> In (Some y) series -> x == y) ->
   forall chem_cols c, In c (Sickness_Index chem_cols series) -> c = None) /\
  (forall chem_cols,
     In series chem_cols ->
     (forall col, In col chem_cols ->
        forall x y, In (Some x) col -> In (Some y) col -> x == y) ->
     forall dist c, In c (Sickness_Index chem_cols dist) -> c = None).
Proof.
  split; [apply safe_norm_length|].
  split; [|split; [|split; [|split; [|split]]]].
  - intros i j x y nx ny Hi Hj Hni Hnj Hxy.
    destruct (safe_norm_some series i nx Hni)
      as (v & vs & x' & Hd & Hlt & Hi' & -> & _).
    destruct (safe_norm_some series j ny Hnj)
      as (v' & vs' & y' & Hd' & _ & Hj' & -> & _).
    rewrite Hd in Hd'. injection Hd' as <- <-.
    rewrite Hi in Hi'. injection Hi' as <-.
    rewrite Hj in Hj'. injection Hj' as <-.
    apply div_monotone; lra.
  - intros Htwo i x Hi.
    destruct (two_values_spread series Htwo) as (v & vs & Hd & Hlt).
    destruct (safe_norm_spread series v vs i x Hd Hlt Hi) as [Hs [Hlo Hhi]].
    eexists. split; [exact Hs|]. split; [apply div_unit_range; lra|]. split.
    + intros Hleast.
      destruct (series_min_spec vs v) as [_ (lo & Hin & Elo)].
      rewrite <- Hd in Hin. apply dropna_In in Hin.
      pose proof (Hleast lo Hin) as Hx.
      assert (E : x - series_min v vs == 0) by lra.
      rewrite E. unfold Qdiv. apply Qmult_0_l.
    + intros Hgreatest.
      destruct (series_max_spec vs v) as [_ (hi & Hin & Ehi)].
      rewrite <- Hd in Hin. apply dropna_In in Hin.
      pose proof (Hgreatest hi Hin) as Hx.
      assert (E : x - series_min v vs == series_max v vs - series_min v vs) by lra.
      rewrite E. unfold Qdiv. apply Qmult_inv_r. lra.
  - intros Hnull. apply safe_norm_all_null. now apply dropna_nil.
  - apply safe_norm_degenerate.
  - intros Heq chem_cols c Hin.
    destruct (In_lookup _ _ Hin) as (i & Hi).
    destruct (Sickness_Index_lookup chem_cols series i c Hi) as (cs & di & _ & Hdi & ->).
    rewrite (dist_inv_degenerate series Heq di (lookup_In _ _ _ Hdi)).
    destruct cs; reflexivity.
  - intros chem_cols _ Hall dist c Hin.
    destruct (In_lookup _ _ Hin) as (i & Hi).
    destruct (Sickness_Index_lookup chem_cols dist i c Hi) as (cs & di & Hcs & _ & ->).
    apply chem_score_lookup in Hcs. destruct Hcs as [_ ->].
    rewrite mean_skipna_all_null; [reflexivity|].
    intros c' Hc'. apply row_at_In in Hc'. destruct Hc' as (col & Hcol & ->).
    unfold norm_cols in Hcol. apply in_map_iff in Hcol.
    destruct Hcol as (raw & <- & Hraw).
    rewrite nth_lookup. destruct (safe_norm raw !! i) as [c0|] eqn:Hc0; [|reflexivity].
    simpl. apply (safe_norm_degenerate raw (Hall raw Hraw) c0 (lookup_In _ _ _ Hc0)).
Qed.

End IndexSpec.

Module RankSpec.
Import WatershedHealth.

Lemma Qgtb_true (w v : Q) : Qgtb w v = true <-> v < w.
Proof.
  unfold Qgtb. rewrite negb_true_iff. split.
  - intros H. apply Qnot_le_lt. intros Hle.
    apply Qle_bool_iff in Hle. congruence.
  - intros H. destruct (Qle_bool w v) eqn:E; [|reflexivity].
    apply Qle_bool_iff in E. exfalso. apply (Qlt_not_le _ _ H E).
Qed.

(** The distinct values above [v], in reduced form. *)
Lemma above_In (values : list Q) (v q : Q) :
  In q (nodup Q_eq_dec (map Qred (List.filter (fun w => Qgtb w v) values))) <->
  exists w, In w values /\ v < w /\ q = Qred w.
Proof.
  rewrite nodup_In, in_map_iff. split.
  - intros (w & <- & Hw). apply filter_In in Hw. destruct Hw as [Hin Hgt].
    exists w. split; [exact Hin|]. split; [now apply Qgtb_true | reflexivity].
  - intros (w & Hin & Hgt & ->). exists w. split; [reflexivity|].
    apply filter_In. split; [exact Hin | now apply Qgtb_true].
Qed.

Lemma dense_rank_strict (values : list Q) (a b : Q) :
  In a values -> b < a -> (dense_rank values a < dense_rank values b)%nat.
Proof.
  intros Ha Hlt. unfold dense_rank. apply -> Nat.succ_lt_mono.
  set (A := nodup Q_eq_dec (map Qred (List.filter (fun w => Qgtb w a) values))).
  set (B := nodup Q_eq_dec (map Qred (List.filter (fun w => Qgtb w b) values))).
  assert (Hnd : List.NoDup (Qred a :: A)).
  { constructor; [|apply List.NoDup_nodup].
    intros Hin. apply above_In in Hin. destruct Hin as (w & _ & Hgt & E).
    apply Qred_eq_iff in E. rewrite E in Hgt.
    apply (Qlt_irrefl _ Hgt). }
  assert (Hincl : incl (Qred a :: A) B).
  { intros q [<-|Hq].
    - apply above_In. exists a. auto.
    - apply above_In in Hq. destruct Hq as (w & Hin & Hgt & ->).
      apply above_In. exists w. split; [exact Hin|]. split; [|reflexivity].
      apply Qlt_trans with a; assumption. }
  apply (List.NoDup_incl_length Hnd Hincl).
Qed.

Lemma dense_rank_top (values : list Q) (a : Q) :
  (forall b, In b values -> b <= a) -> dense_rank values a = 1%nat.
Proof.
  intros Htop. unfold dense_rank.
  replace (List.filter (fun w => Qgtb w a) values) with (@nil Q); [reflexivity|].
  symmetry. induction values as [|x rest IH]; [reflexivity|]. simpl.
  destruct (Qgtb x a) eqn:E.
  - apply Qgtb_true in E. exfalso.
    apply (Qlt_not_le _ _ E). apply Htop. now left.
  - apply IH. intros b Hb. apply Htop. now right.
Qed.

Lemma dense_rank_tie (values : list Q) (a b : Q) :
  a == b -> dense_rank values a = dense_rank values b.
Proof.
  intros E. unfold dense_rank. do 4 f_equal.
  apply filter_ext. intros w. unfold Qgtb. f_equal.
  destruct (Qle_bool w a) eqn:Ea, (Qle_bool w b) eqn:Eb; try reflexivity.
  - apply Qle_bool_iff in Ea. rewrite E in Ea. apply Qle_bool_iff in Ea. congruence.
  - apply Qle_bool_iff in Eb. rewrite <- E in Eb. apply Qle_bool_iff in Eb. congruence.
Qed.

(** Dense ranks leave no gap: below a rank other than 1 sits a value
    ranked one less. *)
Lemma dense_rank_no_gap (values : list Q) (a : Q) :
  dense_rank values a <> 1%nat ->
  exists w, In w values /\ a < w /\ dense_rank values a = S (dense_rank values w).
Proof.
  intros Hne.
  destruct (List.filter (fun w => Qgtb w a) values) as [|u us] eqn:Hf.
  { exfalso. apply Hne. unfold dense_rank. rewrite Hf. reflexivity. }
  destruct (NormSpec.series_min_spec us u) as [Hmin (w & Hw & Ew)].
  rewrite <- Hf in Hw. apply filter_In in Hw. destruct Hw as [Hwin Hwgt].
  apply Qgtb_true in Hwgt.
  assert (Hleast : forall y, In y values -> a < y -> w <= y).
  { intros y Hy Hay. rewrite Ew. apply Hmin. rewrite <- Hf.
    apply filter_In. split; [exact Hy | now apply Qgtb_true]. }
  exists w. split; [exact Hwin|]. split; [exact Hwgt|].
  unfold dense_rank. f_equal.
  set (A := nodup Q_eq_dec (map Qred (List.filter (fun x => Qgtb x a) values))).
  set (W := nodup Q_eq_dec (map Qred (List.filter (fun x => Qgtb x w) values))).
  change (length A = length (Qred w :: W)).
  apply Nat.le_antisymm.
  - apply List.NoDup_incl_length; [apply List.NoDup_nodup|].
    intros q Hq. apply above_In in Hq. destruct Hq as (y & Hy & Hay & ->).
    destruct (Qlt_le_dec w y) as [Hlt|Hle].
    + right. apply above_In. exists y. auto.
    + left. apply Qred_complete. apply Qle_antisym; [now apply Hleast | exact Hle].
  - apply List.NoDup_incl_length.
    + constructor; [|apply List.NoDup_nodup].
      intros Hin. apply above_In in Hin. destruct Hin as (y & _ & Hgt & E).
      apply Qred_eq_iff in E. rewrite E in Hgt. apply (Qlt_irrefl _ Hgt).
    + intros q [<-|Hq].
      * apply above_In. exists w. auto.
      * apply above_In in Hq. destruct Hq as (y & Hy & Hwy & ->).
        apply above_In. exists y. split; [exact Hy|]. split; [|reflexivity].
        apply Qlt_trans with w; assumption.
Qed.
(** *** The sort *)

Lemma insert_by_rank_perm (r : summary_row) (l : list summary_row) :
  Permutation (insert_by_rank r l) (r :: l).
Proof.
  induction l as [|x rest IH]; simpl; [reflexivity|].
  destruct (Rank r <=? Rank x)%nat; [reflexivity|].
  rewrite IH. apply perm_swap.
Qed.

Lemma sort_by_rank_perm (l : list summary_row) : Permutation (sort_by_rank l) l.
Proof.
  induction l as [|x rest IH]; simpl; [reflexivity|].
  rewrite insert_by_rank_perm. now constructor.
Qed.

Lemma insert_by_rank_sorted (r : summary_row) (l : list summary_row) :
  StronglySorted (fun a b => (Rank a <= Rank b)%nat) l ->
  StronglySorted (fun a b => (Rank a <= Rank b)%nat) (insert_by_rank r l).
Proof.
  induction l as [|x rest IH]; intros Hs; simpl.
  - constructor; constructor.
  - destruct (Rank r <=? Rank x)%nat eqn:E.
    + apply Nat.leb_le in E. constructor; [exact Hs|].
      constructor; [exact E|].
      apply StronglySorted_inv in Hs. destruct Hs as [_ Hall].
      rewrite List.Forall_forall in Hall. apply List.Forall_forall.
      intros b Hb. specialize (Hall b Hb). simpl in Hall. lia.
    + apply Nat.leb_gt in E.
      apply StronglySorted_inv in Hs. destruct Hs as [Hrest Hall].
      constructor; [now apply IH|].
      apply List.Forall_forall. intros b Hb.
      apply (Permutation_in _ (insert_by_rank_perm r rest)) in Hb.
      destruct Hb as [<-|Hb]; [lia|].
      rewrite List.Forall_forall in Hall. now apply Hall.
Qed.

Lemma sort_by_rank_sorted (l : list summary_row) :
  StronglySorted (fun a b => (Rank a <= Rank b)%nat) (sort_by_rank l).
Proof.
  induction l as [|x rest IH]; simpl; [constructor|].
  now apply insert_by_rank_sorted.
Qed.

(** *** The ranked rows *)

Lemma all_values_some (col : list cell) :
  (forall c, In c col -> c <> None) -> exists values, all_values col = Some values.
Proof.
  induction col as [|[x|] rest IH]; intros Hall; simpl.
  - eauto.
  - destruct IH as (values & ->); [|eauto].
    intros c Hc. apply Hall. now right.
  - exfalso. apply (Hall None); [now left | reflexivity].
Qed.

Lemma all_values_map (col : list cell) (values : list Q) :
  all_values col = Some values -> col = map Some values.
Proof.
  revert values. induction col as [|[x|] rest IH]; intros values; simpl.
  - intros [= <-]. reflexivity.
  - destruct (all_values rest) as [l|]; [|discriminate].
    intros [= <-]. simpl. f_equal. now apply IH.
  - discriminate.
Qed.

Lemma zip_rank_In (hs : list string) (vs all : list Q) (r : summary_row) :
  In r (zip_with (fun h v => {| huc := h; mean_index := v;
                                Rank := dense_rank all v |}) hs vs) ->
  Rank r = dense_rank all (mean_index r).
Proof.
  revert vs. induction hs as [|h hs IH]; intros [|v vs]; simpl; try tauto.
  intros [<-|Hr]; [reflexivity | now apply (IH vs)].
Qed.

Lemma ranked_rows (summary : list (string * cell)) (rows : list summary_row) :
  ranked summary = Some rows ->
  map huc rows = map fst summary /\
  map (fun r => Some (mean_index r)) rows = map snd summary /\
  forall r, In r rows ->
    In (mean_index r) (map mean_index rows) /\
    Rank r = dense_rank (map mean_index rows) (mean_index r).
Proof.
  unfold ranked. destruct (all_values (map snd summary)) as [values|] eqn:Hv;
    [|discriminate].
  intros [= <-]. apply all_values_map in Hv.
  assert (Hlen : length (map fst summary) = length values).
  { rewrite length_map. rewrite <- (length_map snd), Hv. now rewrite length_map. }
  set (hs := map fst summary) in *. clearbody hs.
  assert (Hmi : forall (hs : list string) (vs all : list Q),
             length hs = length vs ->
             map mean_index
               (zip_with (fun h v => {| huc := h; mean_index := v;
                                        Rank := dense_rank all v |}) hs vs) = vs).
  { clear. induction hs as [|h hs IH]; intros [|v vs] all Hl; simpl in *;
      try discriminate; [reflexivity|]. f_equal. apply IH. lia. }
  assert (Hhu : forall (hs : list string) (vs all : list Q),
             length hs = length vs ->
             map huc
               (zip_with (fun h v => {| huc := h; mean_index := v;
                                        Rank := dense_rank all v |}) hs vs) = hs).
  { clear. induction hs as [|h hs IH]; intros [|v vs] all Hl; simpl in *;
      try discriminate; [reflexivity|]. f_equal. apply IH. lia. }
  split; [apply Hhu, Hlen|]. split.
  - rewrite Hv. rewrite <- (Hmi hs values values Hlen) at 2.
    rewrite map_map. reflexivity.
  - intros r Hr. rewrite (Hmi hs values values Hlen). split.
    + rewrite <- (Hmi hs values values Hlen). now apply in_map.
    + apply (zip_rank_In hs values values r Hr).
Qed.

(** C7: when every HUC12 has a mean index the ranked summary exists; it
    holds the rows of the summary, one per HUC12 with its mean index;
    of two rows the one with the strictly greater mean index has the
    strictly smaller [Rank], rows of equal mean index share their
    [Rank], a row of the greatest mean index has [Rank] 1, a row of
    another [Rank] has a row ranked one less above it; and the table is
    in ascending order of [Rank]. *)
Theorem dense_rank_summary (summary : list (string * cell)) :
  ((forall c, In c (map snd summary) -> c <> None) ->
   exists table, summary_table summary = Some table) /\
  forall table, summary_table summary = Some table ->
    (exists rows,
       Permutation table rows /\
       map huc rows = map fst summary /\
       map (fun r => Some (mean_index r)) rows = map snd summary) /\
    (forall a b, In a table -> In b table ->
       mean_index b < mean_index a -> (Rank a < Rank b)%nat) /\
    (forall a b, In a table -> In b table ->
       mean_index a == mean_index b -> Rank a = Rank b) /\
    (forall a, In a table ->
       (forall b, In b table -> mean_index b <= mean_index a) -> Rank a = 1%nat) /\
    (forall a, In a table -> Rank a <> 1%nat ->
       exists b, In b table /\ mean_index a < mean_index b /\ Rank a = S (Rank b)) /\
    StronglySorted (fun a b => (Rank a <= Rank b)%nat) table.
Proof.
  split.
  - intros Hall. unfold summary_table, ranked.
    destruct (all_values_some _ Hall) as (values & ->). simpl. eauto.
  - intros table. unfold summary_table.
    destruct (ranked summary) as [rows|] eqn:Hr; [|discriminate].
    simpl. intros [= <-].
    destruct (ranked_rows summary rows Hr) as (Hhuc & Hmean & Hrank).
    pose proof (sort_by_rank_perm rows) as Hperm.
    assert (Hin : forall r, In r (sort_by_rank rows) -> In r rows)
      by (intros r; apply Permutation_in; exact Hperm).
    split; [|split; [|split; [|split; [|split]]]].
    + exists rows. auto.
    + intros a b Ha Hb Hlt.
      destruct (Hrank a (Hin a Ha)) as [Hia ->].
      destruct (Hrank b (Hin b Hb)) as [_ ->].
      now apply dense_rank_strict.
    + intros a b Ha Hb E.
      destruct (Hrank a (Hin a Ha)) as [_ ->].
      destruct (Hrank b (Hin b Hb)) as [_ ->].
      now apply dense_rank_tie.
    + intros a Ha Htop. destruct (Hrank a (Hin a Ha)) as [_ ->].
      apply dense_rank_top. intros v Hv. apply in_map_iff in Hv.
      destruct Hv as (b & <- & Hb). apply Htop.
      apply Permutation_in with rows; [now symmetry | exact Hb].
    + intros a Ha Hne. destruct (Hrank a (Hin a Ha)) as [_ Ea].
      rewrite Ea in Hne.
      destruct (dense_rank_no_gap _ _ Hne) as (w & Hw & Hlt & Hgap).
      apply in_map_iff in Hw. destruct Hw as (b & <- & Hb).
      exists b. split; [|split].
      * apply Permutation_in with rows; [now symmetry | exact Hb].
      * exact Hlt.
      * destruct (Hrank b Hb) as [_ ->]. rewrite Ea. exact Hgap.
    + apply sort_by_rank_sorted.
Qed.

Example summary_table_sample :
  option_map (map (fun r => (huc r, Rank r)))
    (summary_table [("a", Some (1 # 2)); ("b", Some (3 # 4));
                    ("c", Some (2 # 4)); ("d", Some (1 # 10))]%string)
  = Some [("b", 1); ("a", 2); ("c", 2); ("d", 3)]%string%nat.
Proof. reflexivity. Qed.

(** A HUC12 without a mean index: [astype(int)] raises. *)
Example summary_table_null :
  summary_table [("a", Some (1 # 2)); ("b", None)]%string = None.
Proof. reflexivity. Qed.

End RankSpec.

Module CleanerSpec.
Import Cleaner.

Lemma isin_In (values : list string) (c : text_cell) :
  isin values c = true <-> exists p, c = Some p /\ In p values.
Proof.
  unfold isin. destruct c as [s|].
  - rewrite existsb_exists. split.
    + intros (p & Hin & E). apply String.eqb_eq in E. subst p. eauto.
    + intros (p & [= <-] & Hin). exists s. split; [exact Hin | apply String.eqb_refl].
  - split; [discriminate | intros (p & E & _); discriminate].
Qed.

(** The rows one chunk adds to the subset file. *)
Lemma expected_subset_cons (ch : frame) (chunks : list frame) :
  expected_subset (ch :: chunks)
  = (if has_column "CharacteristicName" ch then subset_of ch else [])
    ++ expected_subset chunks.
Proof.
  unfold expected_subset. simpl. rewrite List.filter_app.
  destruct (has_column "CharacteristicName" ch); reflexivity.
Qed.

Lemma to_csv_append (first : bool) (file : option (list record))
    (a b : list record) :
  to_csv false (to_csv first file a) b = to_csv first file (a ++ b).
Proof.
  unfold to_csv. destruct first; [reflexivity|].
  destruct file as [old|]; [now rewrite app_assoc | reflexivity].
Qed.

(** The files after the loop, from any state of the loop. *)
Lemma fold_write_chunk (chunks : list frame) (st : state) :
  let st' := fold_left write_chunk chunks st in
  out_subset st'
  = match expected_subset chunks with
    | [] => out_subset st
    | w => to_csv (first_subset st) (out_subset st) w
    end /\
  out_clean st'
  = match chunks with
    | [] => out_clean st
    | _ => to_csv (first_clean st) (out_clean st) (flat_map rows chunks)
    end.
Proof.
  revert st. induction chunks as [|ch rest IH]; intros st; [split; reflexivity|].
  cbn zeta. cbn [fold_left]. destruct (IH (write_chunk st ch)) as [Hsub Hclean].
  rewrite Hsub, Hclean. clear IH Hsub Hclean. rewrite expected_subset_cons.
  assert (Hc : out_clean (write_chunk st ch)
               = to_csv (first_clean st) (out_clean st) (rows ch)
               /\ first_clean (write_chunk st ch) = false).
  { unfold write_chunk. destruct (has_column "CharacteristicName" ch);
      [destruct (subset_of ch)|]; split; reflexivity. }
  destruct Hc as [Hc Hf]. split.
  - unfold write_chunk.
    destruct (has_column "CharacteristicName" ch); [|reflexivity].
    destruct (subset_of ch) as [|r sub] eqn:Hs; [reflexivity|].
    cbn [out_subset first_subset app].
    destruct (expected_subset rest) as [|r' w]; [now rewrite app_nil_r|].
    rewrite to_csv_append. reflexivity.
  - rewrite Hc, Hf. destruct rest as [|ch' rest'].
    + simpl. now rewrite app_nil_r.
    + rewrite to_csv_append. reflexivity.
Qed.

(** C9: the rows [clean_wqx_file] writes to the subset file are the rows
    of the cleaned chunks with a [CharacteristicName] column whose
    [CharacteristicName] is an AMD parameter: when there is such a row
    the file holds exactly these rows, in order, and otherwise the file
    is not written; each of them names one of the seven parameters; a
    chunk without the column adds no row; and the cleaned file holds the
    rows of all chunks. *)
Theorem amd_subset_rows (chunks : list frame)
    (clean_before subset_before : option (list record)) :
  let st := clean_wqx_file chunks clean_before subset_before in
  (expected_subset chunks <> [] -> out_subset st = Some (expected_subset chunks)) /\
  (expected_subset chunks = [] -> out_subset st = subset_before) /\
  (forall r, In r (expected_subset chunks) ->
     exists p, field "CharacteristicName" r = Some p /\
               In p ["pH"; "Iron"; "Manganese"; "Aluminum"; "Sulfate";
                     "Alkalinity"; "Specific conductance"]%string) /\
  (forall r, In r (expected_subset chunks) <->
     (exists ch, In ch chunks /\ has_column "CharacteristicName" ch = true /\
                 In r (rows ch)) /\
     isin amd_params (field "CharacteristicName" r) = true) /\
  ((forall ch, In ch chunks -> has_column "CharacteristicName" ch = false) ->
   out_subset st = subset_before) /\
  (chunks <> [] -> out_clean st = Some (flat_map rows chunks)).
Proof.
  cbn zeta. unfold clean_wqx_file.
  destruct (fold_write_chunk chunks
              {| out_clean := clean_before; out_subset := subset_before;
                 first_clean := true; first_subset := true |}) as [Hsub Hclean].
  cbn zeta in Hsub, Hclean. cbn [out_subset out_clean first_subset first_clean] in *.
  assert (Hmem : forall r, In r (expected_subset chunks) <->
            (exists ch, In ch chunks /\ has_column "CharacteristicName" ch = true /\
                        In r (rows ch)) /\
            isin amd_params (field "CharacteristicName" r) = true).
  { intros r. unfold expected_subset. rewrite filter_In, in_flat_map.
    split; intros [(ch & Hch & Hr) Hisin]; (split; [|exact Hisin]).
    - exists ch. destruct (has_column "CharacteristicName" ch); [auto | destruct Hr].
    - destruct Hr as [Hcol Hr]. exists ch. rewrite Hcol. auto. }
  split; [|split; [|split; [|split; [|split]]]].
  - intros Hne. rewrite Hsub. destruct (expected_subset chunks); [contradiction|reflexivity].
  - intros He. rewrite Hsub, He. reflexivity.
  - intros r Hr. apply Hmem in Hr. destruct Hr as [_ Hisin].
    apply isin_In in Hisin. exact Hisin.
  - exact Hmem.
  - intros Hno. rewrite Hsub.
    destruct (expected_subset chunks) as [|r w] eqn:He; [reflexivity|].
    exfalso. assert (Hr : In r (r :: w)) by (now left).
    apply Hmem in Hr. destruct Hr as [(ch & Hch & Hcol & _) _].
    rewrite (Hno ch Hch) in Hcol. discriminate.
  - intros Hne. rewrite Hclean. destruct chunks; [contradiction | reflexivity].
Qed.

Example amd_subset_sample :
  out_subset (clean_wqx_file sample_chunks None (Some []))
  = Some [[("CharacteristicName", Some "pH"); ("ResultMeasureValue", Some "6.5")];
          [("CharacteristicName", Some "Iron"); ("ResultMeasureValue", Some "12")]]%string.
Proof. reflexivity. Qed.

End CleanerSpec.

Module NearestRowsSpec.
Import ProximityJoin8 ProximityJoin8Spec.
Local Open Scope nat_scope.

(** The position [idx_map] gives an object is its last one in the list. *)
Lemma build_idx_map_last (geoms : list addr) (i : nat) (m : gmap addr nat) (a : addr) :
  In a geoms ->
  exists k, build_idx_map geoms i m !! a = Some (i + k) /\ geoms !! k = Some a /\
            forall j, k < j -> geoms !! j <> Some a.
Proof.
  revert i m. induction geoms as [|g rest IH]; intros i m Hin; [destruct Hin|].
  simpl. destruct (in_dec Nat.eq_dec a rest) as [Hrest|Hrest].
  - destruct (IH (S i) (<[g:=i]> m) Hrest) as (k & Hk & Hl & Hlast).
    exists (S k). split; [rewrite Hk; f_equal; lia|]. split; [exact Hl|].
    intros [|j] Hj; [lia|]. simpl. apply Hlast. lia.
  - destruct Hin as [->|Hin]; [|contradiction].
    exists 0. rewrite build_idx_map_miss by assumption.
    rewrite lookup_insert_eq. split; [f_equal; lia|]. split; [reflexivity|].
    intros [|j] Hj; [lia|]. simpl. intros Hj'. apply Hrest.
    apply list_elem_of_In, list_elem_of_lookup. eauto.
Qed.

Lemma idx_map_last_position_aux (geoms : list addr) (a : addr) :
  (idx_map geoms !! a = None <-> ~ In a geoms) /\
  (forall k, idx_map geoms !! a = Some k <->
             geoms !! k = Some a /\ forall j, k < j -> geoms !! j <> Some a).
Proof.
  assert (Hhit : In a geoms ->
            exists k, idx_map geoms !! a = Some k /\ geoms !! k = Some a /\
                      forall j, k < j -> geoms !! j <> Some a).
  { intros Hin. destruct (build_idx_map_last geoms 0 ∅ a Hin) as (k & Hk & Hl & Hlast).
    exists k. auto. }
  split.
  - split.
    + intros Hnone Hin. destruct (Hhit Hin) as (k & Hk & _). congruence.
    + intros Hnin. unfold idx_map. rewrite build_idx_map_miss by assumption.
      apply lookup_empty.
  - intros k. split.
    + intros Hk. destruct (in_dec Nat.eq_dec a geoms) as [Hin|Hnin].
      * destruct (Hhit Hin) as (k' & Hk' & Hl & Hlast).
        rewrite Hk in Hk'. injection Hk' as <-. auto.
      * unfold idx_map in Hk. rewrite build_idx_map_miss in Hk by assumption.
        rewrite lookup_empty in Hk. discriminate.
    + intros [Hl Hlast].
      assert (Hin : In a geoms)
        by (apply list_elem_of_In, list_elem_of_lookup; eauto).
      destruct (Hhit Hin) as (k' & Hk' & Hl' & Hlast').
      rewrite Hk'. f_equal.
      destruct (Nat.lt_trichotomy k k') as [Hlt|[->|Hgt]]; [|reflexivity|].
      * exfalso. apply (Hlast k' Hlt Hl').
      * exfalso. apply (Hlast' k Hgt Hl).
Qed.

(** X3: the dict [{id(g): i for i, g in enumerate(geoms)}] has no entry
    for an object that is not in the list, and maps an object of the list
    to the last position at which the list holds it. *)
Theorem idx_map_last_position (geoms : list addr) (a : addr) :
  (idx_map geoms !! a = None <-> ~ In a geoms) /\
  (forall k, idx_map geoms !! a = Some k <->
             geoms !! k = Some a /\ forall j, k < j -> geoms !! j <> Some a).
Proof. apply idx_map_last_position_aux. Qed.

Example idx_map_repeated :
  idx_map [2; 1; 0; 1] !! 1 = Some 3 /\ idx_map [2; 1; 0; 1] !! 5 = None.
Proof. split; reflexivity. Qed.

Section Rows.

Context {geometry : Type} (distance : geometry -> geometry -> Q)
        (deref : addr -> geometry) {strtree : Type}
        (STRtree : list addr -> option strtree)
        (tree_nearest : strtree -> geometry -> option addr).

Local Abbreviation compute :=
  (compute_nearest_chunk geometry distance deref strtree STRtree tree_nearest).

(** X1: [compute_nearest_chunk] returns one row for every row of the
    chunk, in each of its [try] branches; the row of a null or empty
    geometry is null; when the tree cannot be built every row is null;
    and in every row the index and the distance are null together. *)
Theorem compute_nearest_chunk_rows (chunk : list (point_cell geometry))
    (gdf : list addr) :
  length (compute chunk gdf) = length chunk /\
  (forall k, chunk !! k = Some GeomNone \/ chunk !! k = Some GeomEmpty ->
             compute chunk gdf !! k = Some null_row) /\
  (STRtree gdf = None ->
   forall k, k < length chunk -> compute chunk gdf !! k = Some null_row) /\
  (forall k i d, compute chunk gdf !! k = Some (i, d) -> (i = None <-> d = None)).
Proof.
  unfold compute_nearest_chunk. destruct (STRtree gdf) as [tree|] eqn:Htree.
  - cbn zeta. split; [apply length_map|]. split; [|split].
    + intros k [Hk|Hk]; rewrite list_lookup_fmap, Hk; reflexivity.
    + discriminate.
    + intros k i d. rewrite list_lookup_fmap.
      destruct (chunk !! k) as [[| |g]|]; simpl; try discriminate.
      * intros [= <- <-]. tauto.
      * intros [= <- <-]. tauto.
      * destruct (tree_nearest tree g) as [a|]; [|intros [= <- <-]; tauto].
        destruct (idx_map gdf !! a); intros [= <- <-]; [|tauto].
        split; discriminate.
  - split; [apply length_map|]. split; [|split].
    + intros k [Hk|Hk]; rewrite list_lookup_fmap, Hk; reflexivity.
    + intros _ k Hk. rewrite list_lookup_fmap.
      destruct (lookup_lt_is_Some_2 chunk k Hk) as (c & ->). reflexivity.
    + intros k i d. rewrite list_lookup_fmap.
      destruct (chunk !! k); simpl; [|discriminate]. intros [= <- <-]. tauto.
Qed.

(** X2: whatever the spatial index answers, a row with an index comes
    from a point geometry, the tree was built, the index lies inside the
    layer and is the last position of the object [nearest] returned, and
    the distance of the row is the distance from the point to that
    object. *)
Theorem compute_nearest_chunk_sound (chunk : list (point_cell geometry))
    (gdf : list addr) (k i : nat) (d : cell) :
  compute chunk gdf !! k = Some (Some i, d) ->
  exists g tree a,
    chunk !! k = Some (GeomPoint g) /\
    STRtree gdf = Some tree /\
    tree_nearest tree g = Some a /\
    gdf !! i = Some a /\ i < length gdf /\
    (forall j, i < j -> gdf !! j <> Some a) /\
    d = Some (distance g (deref a)).
Proof.
  unfold compute_nearest_chunk. destruct (STRtree gdf) as [tree|] eqn:Htree.
  - cbn zeta. rewrite list_lookup_fmap.
    destruct (chunk !! k) as [[| |g]|] eqn:Hk; simpl; try discriminate.
    destruct (tree_nearest tree g) as [a|] eqn:Ha; [|discriminate].
    destruct (idx_map gdf !! a) as [i'|] eqn:Hi; [|discriminate].
    intros [= <- <-].
    apply (proj2 (idx_map_last_position_aux gdf a) i') in Hi.
    destruct Hi as [Hl Hlast].
    exists g, tree, a. repeat split; try assumption; try reflexivity.
    apply lookup_lt_Some in Hl. exact Hl.
  - rewrite list_lookup_fmap. destruct (chunk !! k); discriminate.
Qed.

End Rows.

Lemma compute_nearest_chunk_sound_witness :
  exists (g : Q) (tree : list addr) (a : addr),
    [GeomNone; GeomPoint (1200 # 1)] !! 1 = Some (GeomPoint g) /\
    scan_tree [2; 1; 0; 1] = Some tree /\
    scan_tree_nearest heap3 tree g = Some a /\
    [2; 1; 0; 1] !! 3 = Some a /\ 3 < length [2; 1; 0; 1] /\
    (forall j, 3 < j -> [2; 1; 0; 1] !! j <> Some a) /\
    Some (line_distance (1200 # 1) (heap3 1)) = Some (line_distance g (heap3 a)).
Proof.
  apply (compute_nearest_chunk_sound line_distance heap3 scan_tree
           (scan_tree_nearest heap3) [GeomNone; GeomPoint (1200 # 1)]
           [2; 1; 0; 1] 1 3 (Some (line_distance (1200 # 1) (heap3 1)))).
  reflexivity.
Defined.

(** X9: [N_JOBS] is at most 8 and is 0 exactly on a machine of one core
    (or none reported); with 0 jobs the parallel path raises for every
    chunk, so the loop takes the sequential fallback, and with a positive
    number of jobs and a working pool it returns. *)
Theorem N_JOBS_fallback (geometry : Type) (distance : geometry -> geometry -> Q)
    (deref : addr -> geometry) (strtree : Type)
    (STRtree : list addr -> option strtree)
    (tree_nearest : strtree -> geometry -> option addr)
    (cpu_count : nat) (joblib_ok : bool)
    (chunk : list (point_cell geometry)) (gdf : list addr) :
  N_JOBS cpu_count <= 8 /\
  (N_JOBS cpu_count = 0 <-> cpu_count <= 1) /\
  (cpu_count <= 1 ->
   parallel_path geometry distance deref strtree STRtree tree_nearest
     joblib_ok (N_JOBS cpu_count) chunk gdf = None) /\
  (2 <= cpu_count ->
   parallel_path geometry distance deref strtree STRtree tree_nearest
     true (N_JOBS cpu_count) chunk gdf <> None).
Proof.
  unfold N_JOBS. split; [lia|]. split; [lia|]. split.
  - intros Hc. replace (Nat.min 8 (cpu_count - 1)) with 0 by lia. reflexivity.
  - intros Hc. unfold parallel_path.
    destruct (SplitSpec.array_split_spec chunk (Nat.min 8 (cpu_count - 1)) ltac:(lia))
      as (splits & -> & _). discriminate.
Qed.

End NearestRowsSpec.
Module LoopSpec.
Import ProximityJoin8 JoinOutput.
Local Open Scope nat_scope.

(** *** Chunks *)

Lemma py_range_blocks (start stop step : nat) :
  0 < step ->
  py_range start stop step
  = map (fun k => start + k * step) (seq 0 ((stop - start + step - 1) / step)) /\
  stop - start <= (stop - start + step - 1) / step * step /\
  forall k, k < (stop - start + step - 1) / step -> k * step < stop - start.
Proof.
  intros Hs. split; [reflexivity|].
  pose proof (Nat.div_mod_eq (stop - start + step - 1) step) as Hdm.
  pose proof (Nat.mod_upper_bound (stop - start + step - 1) step ltac:(lia)) as Hlt.
  split; [nia|]. intros k Hk. nia.
Qed.

Lemma chunks_as_blocks {geometry : Type} (size start : nat)
    (chem : list (chem_row geometry)) :
  chunks geometry size start chem
  = map (fun k => take size (drop (k * size) (drop start chem)))
        (seq 0 ((length chem - start + size - 1) / size)).
Proof.
  unfold chunks, py_range. rewrite map_map. apply map_ext.
  intros k. now rewrite drop_drop.
Qed.

(** X4: for a positive chunk size the chunks cut from row [start_idx]
    are, in order, the rows of the frame from that row on; none of them
    is empty and none holds more than [CHUNK_SIZE] rows. *)
Theorem chunks_partition {geometry : Type} (size start_idx : nat)
    (chem : list (chem_row geometry)) (Hsize : 0 < size) :
  concat (chunks geometry size start_idx chem) = drop start_idx chem /\
  forall c, In c (chunks geometry size start_idx chem) -> 0 < length c <= size.
Proof.
  rewrite chunks_as_blocks.
  destruct (py_range_blocks start_idx (length chem) size Hsize) as (_ & Hle & Hlt).
  split.
  - apply FreshRun.concat_blocks; [exact Hsize|]. now rewrite length_drop.
  - intros c Hc. apply in_map_iff in Hc. destruct Hc as (k & <- & Hk).
    apply in_seq in Hk. specialize (Hlt k ltac:(lia)).
    rewrite length_take, !length_drop. lia.
Qed.

Lemma chunks_partition_witness :
  concat (chunks Q 2 1 (chem_from 6 0)) = drop 1 (chem_from 6 0) /\
  forall c, In c (chunks Q 2 1 (chem_from 6 0)) -> 0 < length c <= 2.
Proof. apply (chunks_partition 2 1 (chem_from 6 0)). lia. Defined.

Example chunks_sample :
  map (map rec_id) (chunks Q 2 1 (chem_from 6 0)) = [[1; 2]; [3; 4]; [5]]%N.
Proof. reflexivity. Qed.

(** *** The newest checkpoint *)

Lemma max_by_mtime_spec (l : list checkpoint) (best : checkpoint) :
  In (max_by_mtime best l) (best :: l) /\
  forall f, In f (best :: l) -> ck_mtime f <= ck_mtime (max_by_mtime best l).
Proof.
  revert best. induction l as [|x rest IH]; intros best; simpl.
  - split; [now left|]. intros f [<-|[]]. lia.
  - destruct (ck_mtime best <? ck_mtime x) eqn:E.
    + apply Nat.ltb_lt in E. destruct (IH x) as [Hin Hmax]. split.
      * destruct Hin as [<-|Hin]; [right; now left | right; now right].
      * intros f [<-|[<-|Hf]].
        -- specialize (Hmax x ltac:(now left)). lia.
        -- apply Hmax. now left.
        -- apply Hmax. now right.
    + apply Nat.ltb_ge in E. destruct (IH best) as [Hin Hmax]. split.
      * destruct Hin as [<-|Hin]; [now left | right; now right].
      * intros f [<-|[<-|Hf]].
        -- apply Hmax. now left.
        -- specialize (Hmax best ltac:(now left)). lia.
        -- apply Hmax. now right.
Qed.

(** X5: [latest_checkpoint] is 0 for an empty checkpoint directory and
    otherwise the offset in the name of a file no other file is newer
    than; right after a checkpoint is written, in a directory whose files
    are all older than the clock, it is the offset just written, and the
    files are again all older than the clock. *)
Theorem latest_checkpoint_newest (fs : files) :
  (checkpoint_dir fs = [] -> latest_checkpoint fs = 0) /\
  (checkpoint_dir fs <> [] ->
   exists f, In f (checkpoint_dir fs) /\ latest_checkpoint fs = ck_offset f /\
             forall f', In f' (checkpoint_dir fs) -> ck_mtime f' <= ck_mtime f) /\
  forall name offset,
    (forall f, In f (checkpoint_dir fs) -> ck_mtime f < clock fs) ->
    latest_checkpoint (write_checkpoint name offset fs) = offset /\
    forall f, In f (checkpoint_dir (write_checkpoint name offset fs)) ->
              ck_mtime f < clock (write_checkpoint name offset fs).
Proof.
  assert (Hnewest : forall fs', checkpoint_dir fs' <> [] ->
            exists f, In f (checkpoint_dir fs') /\ latest_checkpoint fs' = ck_offset f /\
                      forall f', In f' (checkpoint_dir fs') -> ck_mtime f' <= ck_mtime f).
  { intros fs' Hne. unfold latest_checkpoint.
    destruct (checkpoint_dir fs') as [|f rest]; [contradiction|].
    destruct (max_by_mtime_spec rest f) as [Hin Hmax].
    exists (max_by_mtime f rest). auto. }
  split; [|split].
  - unfold latest_checkpoint. intros ->. reflexivity.
  - apply Hnewest.
  - intros name offset Hold.
    assert (Hdir : forall f, In f (checkpoint_dir (write_checkpoint name offset fs)) ->
              (In f (checkpoint_dir fs) /\ ck_mtime f < clock fs) \/
              f = {| ck_name := name; ck_offset := offset; ck_mtime := clock fs |}).
    { intros f. simpl. rewrite in_app_iff, filter_In.
      intros [[Hf _]|[<-|[]]]; [left | right; reflexivity]. auto. }
    split.
    + destruct (Hnewest (write_checkpoint name offset fs)) as (f & Hf & -> & Hmax).
      { simpl. destruct (List.filter _ _); discriminate. }
      destruct (Hdir f Hf) as [[_ Hlt]| ->]; [|reflexivity].
      exfalso.
      specialize (Hmax {| ck_name := name; ck_offset := offset; ck_mtime := clock fs |}).
      simpl in Hmax. rewrite in_app_iff in Hmax.
      specialize (Hmax ltac:(right; now left)). lia.
    + intros f Hf. destruct (Hdir f Hf) as [[_ Hlt]| ->]; simpl; lia.
Qed.

Section Loop.

Context {geometry : Type} (distance : geometry -> geometry -> Q)
        (deref : addr -> geometry) {strtree : Type}
        (STRtree : list addr -> option strtree)
        (tree_nearest : strtree -> geometry -> option addr).
Variables (size : nat) (joblib_ok : bool) (n_jobs : nat).

Local Abbreviation process :=
  (process_chunk geometry distance deref strtree STRtree tree_nearest
     size joblib_ok n_jobs).
Local Abbreviation stepf :=
  (step geometry distance deref strtree STRtree tree_nearest size joblib_ok n_jobs).

Lemma process_chunk_marks (name : string) (gdf : list addr) (i : nat)
    (chunk : list (chem_row geometry)) (fs : files) :
  checkpoint_exists name (i * size) (process name gdf i chunk fs) = true.
Proof.
  unfold process_chunk.
  destruct (checkpoint_exists name (i * size) fs) eqn:E; [exact E|].
  change (checkpoint_exists name (i * size)
            (write_checkpoint name (i * size) fs) = true).
  rewrite FreshRun.exists_write, String.eqb_refl, Nat.eqb_refl. reflexivity.
Qed.

(** X7: once an iteration for a layer and a chunk number has run, any
    later iteration for the same layer name and chunk number changes no
    file, whichever rows and features it is given: the decision is taken
    on the name of the checkpoint file alone. *)
Theorem process_chunk_once (name : string) (gdf gdf' : list addr) (i : nat)
    (chunk chunk' : list (chem_row geometry)) (fs : files) :
  process name gdf' i chunk' (process name gdf i chunk fs)
  = process name gdf i chunk fs.
Proof.
  unfold process_chunk at 1. rewrite process_chunk_marks. reflexivity.
Qed.

(** *** What a run adds to the output file *)

Lemma append_rows (df : list out_row) (fs : files) :
  rows_of (append_to_output df fs) = rows_of fs ++ df.
Proof.
  unfold rows_of, append_to_output. simpl. now destruct (out_path fs).
Qed.

Lemma zip_out_rows (name : string) (chunk : list (chem_row geometry))
    (rows : list near_row) (o : out_row) :
  In o (zip_with (fun c nr => {| out_rec := rec_id c; out_layer := name;
                                 out_near := nr |}) chunk rows) ->
  out_layer o = name /\ exists c, In c chunk /\ out_rec o = rec_id c.
Proof.
  revert rows. induction chunk as [|c chunk IH]; intros [|nr rows]; simpl; try tauto.
  intros [<-|Hin].
  - split; [reflexivity|]. exists c. split; [now left | reflexivity].
  - destruct (IH rows Hin) as [Hl (c' & Hc' & Hr)].
    split; [exact Hl|]. exists c'. split; [now right | exact Hr].
Qed.

Lemma fold_appends
    (its : list (string * list addr * nat * list (chem_row geometry))) (fs : files) :
  exists new,
    rows_of (fold_left stepf its fs) = rows_of fs ++ new /\
    forall o, In o new ->
      exists g i chunk c, In (out_layer o, g, i, chunk) its /\
                          In c chunk /\ out_rec o = rec_id c.
Proof.
  revert fs. induction its as [|[[[n g] i] chunk] rest IH]; intros fs.
  - exists []. split; [now rewrite app_nil_r | intros o []].
  - cbn [fold_left].
    destruct (IH (stepf fs (n, g, i, chunk))) as (new & Hrows & Hnew).
    assert (Hstep : exists df,
              rows_of (stepf fs (n, g, i, chunk)) = rows_of fs ++ df /\
              forall o, In o df ->
                out_layer o = n /\ exists c, In c chunk /\ out_rec o = rec_id c).
    { unfold step, process_chunk.
      destruct (checkpoint_exists n (i * size) fs).
      - exists []. split; [now rewrite app_nil_r | intros o []].
      - eexists. split; [rewrite append_rows; reflexivity|].
        intros o. apply zip_out_rows. }
    destruct Hstep as (df & Hdf & Hprov).
    exists (df ++ new). split; [rewrite Hrows, Hdf; now rewrite app_assoc|].
    intros o Ho. apply in_app_iff in Ho. destruct Ho as [Ho|Ho].
    + destruct (Hprov o Ho) as [<- (c & Hc & Hr)].
      exists g, i, chunk, c. split; [now left | auto].
    + destruct (Hnew o Ho) as (g' & i' & chunk' & c & Hin & Hc & Hr).
      exists g', i', chunk', c. split; [now right | auto].
Qed.

Lemma iterations_In (start : nat) (chem : list (chem_row geometry))
    (layers : list (string * list addr))
    (n : string) (g : list addr) (i : nat) (chunk : list (chem_row geometry)) :
  In (n, g, i, chunk) (iterations geometry size start chem layers) ->
  In (n, g) layers /\ g <> [] /\ In chunk (chunks geometry size start chem).
Proof.
  unfold iterations. rewrite in_flat_map. intros ([n' g'] & Hl & Hin).
  destruct g' as [|a g']; [destruct Hin|].
  apply in_map_iff in Hin. destruct Hin as ([i' c'] & [= <- <- <- <-] & Hin).
  split; [exact Hl|]. split; [discriminate|].
  clear - Hin. revert Hin. generalize 0.
  induction (chunks geometry size start chem) as [|c cs IH]; intros k; [intros []|].
  simpl. intros [[= _ <-]|Hin]; [now left | right; now apply (IH (S k))].
Qed.

Lemma chunk_rows_from (start : nat) (chem chunk : list (chem_row geometry))
    (c : chem_row geometry) :
  In chunk (chunks geometry size start chem) -> In c chunk -> In c (drop start chem).
Proof.
  rewrite chunks_as_blocks, in_map_iff. intros (k & <- & _) Hc.
  apply list_elem_of_In in Hc. apply list_elem_of_In.
  apply (subseteq_drop (k * size)), (subseteq_take size), Hc.
Qed.

(** X8: a run of the script, resumed or not, only appends to the output
    file: the rows found there before the run stay in front, and every
    row added carries a layer that has features and a record of the
    chemistry frame from row [latest_checkpoint()] on.  A resumed run
    thus never joins a record before its start row, for any layer. *)
Theorem run_main_appends (chem : list (chem_row geometry))
    (layers : list (string * list addr)) (fs : files) :
  exists new,
    rows_of (run_main geometry distance deref strtree STRtree tree_nearest
               size joblib_ok n_jobs chem layers fs)
    = rows_of fs ++ new /\
    forall o, In o new ->
      (exists g, In (out_layer o, g) layers /\ g <> []) /\
      exists c, In c (drop (latest_checkpoint fs) chem) /\ out_rec o = rec_id c.
Proof.
  unfold run_main, resume_or_reset.
  set (start := latest_checkpoint fs).
  assert (Hsame : forall fs', rows_of (reset_checkpoints fs') = rows_of fs')
    by reflexivity.
  destruct (0 <? start);
    [destruct (fold_appends (iterations geometry size start chem layers) fs)
       as (new & Hrows & Hnew)
    |destruct (fold_appends (iterations geometry size start chem layers)
                 (reset_checkpoints fs)) as (new & Hrows & Hnew)];
    exists new; (split; [rewrite Hsame; exact Hrows|]);
    intros o Ho; destruct (Hnew o Ho) as (g & i & chunk & c & Hin & Hc & Hr);
    apply iterations_In in Hin; destruct Hin as (Hl & Hg & Hchunk);
    (split; [exists g; auto|]); exists c;
    (split; [apply (chunk_rows_from start chem chunk c Hchunk Hc) | exact Hr]).
Qed.

End Loop.

(** *** The run that starts fresh *)

Lemma count_rec_NoDup {geometry : Type} (chem : list (chem_row geometry))
    (c : chem_row geometry) :
  List.NoDup (map rec_id chem) -> In c chem -> count_rec (rec_id c) chem = 1.
Proof.
  unfold count_rec. induction chem as [|x rest IH]; intros Hnd Hin; [destruct Hin|].
  simpl in Hnd. inversion Hnd as [|k ks Hnin Hnd' Heq]; subst. simpl.
  destruct Hin as [->|Hin].
  - rewrite N.eqb_refl. simpl. f_equal.
    destruct (List.filter _ rest) as [|y ys] eqn:Hf; [reflexivity|].
    exfalso. assert (Hy : In y (List.filter (fun c0 => N.eqb (rec_id c0) (rec_id c)) rest))
      by (rewrite Hf; now left).
    apply filter_In in Hy. destruct Hy as [Hy E]. apply N.eqb_eq in E.
    apply Hnin. rewrite <- E. now apply in_map.
  - destruct (N.eqb (rec_id x) (rec_id c)) eqn:E.
    + apply N.eqb_eq in E. exfalso. apply Hnin. rewrite E. now apply in_map.
    + now apply IH.
Qed.

(** X6: a run that is not interrupted, that finds no output file and no
    checkpoint of a non-zero offset, over layers of distinct names and
    records of distinct identifiers, writes every record of the chemistry
    frame exactly once for every layer that has features. *)
Theorem fresh_run_exactly_once
    (geometry : Type) (distance : geometry -> geometry -> Q)
    (deref : addr -> geometry) (strtree : Type)
    (STRtree : list addr -> option strtree)
    (tree_nearest : strtree -> geometry -> option addr)
    (size : nat) (joblib_ok : bool) (n_jobs : nat)
    (chem : list (chem_row geometry)) (layers : list (string * list addr))
    (fs : files) (name : string) (a : addr) (gdf : list addr)
    (c : chem_row geometry)
    (Hsize : 0 < size)
    (Hlatest : latest_checkpoint fs = 0)
    (Hout : out_path fs = None)
    (Hnames : List.NoDup (map fst layers))
    (Hids : List.NoDup (map rec_id chem))
    (Hlayer : In (name, a :: gdf) layers)
    (Hrec : In c chem) :
  occurrences (rec_id c) name
    (run_main geometry distance deref strtree STRtree tree_nearest
       size joblib_ok n_jobs chem layers fs) = 1.
Proof.
  rewrite (FreshRun.fresh_run_occurrences distance deref STRtree tree_nearest
             size joblib_ok n_jobs Hsize chem layers fs (rec_id c) name a gdf
             Hlatest Hout Hnames Hlayer).
  now apply count_rec_NoDup.
Qed.

Lemma fresh_run_exactly_once_witness :
  occurrences 3 "Bituminous"
    (run_main Q line_distance heap3 (list addr) scan_tree (scan_tree_nearest heap3)
       2 true 3 (chem_from 5 0) sample_layers no_files) = 1.
Proof.
  apply (fresh_run_exactly_once Q line_distance heap3 (list addr) scan_tree
           (scan_tree_nearest heap3) 2 true 3 (chem_from 5 0) sample_layers
           no_files "Bituminous" 2 [] (Build_chem_row 3%N (GeomPoint (inject_Z 3)))).
  - lia.
  - reflexivity.
  - reflexivity.
  - repeat constructor; simpl; intuition discriminate.
  - repeat constructor; simpl; intuition discriminate.
  - right. left. reflexivity.
  - do 3 right. left. reflexivity.
Defined.

End LoopSpec.

Module WqxSitesSpec.
Import WqxSites ProximityJoinPa.
Local Open Scope nat_scope.

Lemma existsb_eqb_In (c : string) (cols : list string) :
  existsb (String.eqb c) cols = true <-> In c cols.
Proof.
  rewrite existsb_exists. split.
  - intros (x & Hin & E). apply String.eqb_eq in E. now subst.
  - intros Hin. exists c. split; [exact Hin | apply String.eqb_refl].
Qed.

Lemma first_present_some (candidates cols : list string) (c : string) :
  first_present candidates cols = Some c ->
  In c cols /\
  exists before after, candidates = before ++ c :: after /\
                       forall x, In x before -> ~ In x cols.
Proof.
  unfold first_present. induction candidates as [|x rest IH]; [discriminate|].
  simpl. destruct (existsb (String.eqb x) cols) eqn:E.
  - intros [= <-]. split; [now apply existsb_eqb_In|].
    exists [], rest. split; [reflexivity | intros y []].
  - intros Hf. destruct (IH Hf) as [Hin (before & after & -> & Hb)].
    split; [exact Hin|]. exists (x :: before), after. split; [reflexivity|].
    intros y [<-|Hy]; [|now apply Hb].
    intros Hx. apply existsb_eqb_In in Hx. congruence.
Qed.

Lemma first_present_none (candidates cols : list string) :
  first_present candidates cols = None <-> forall x, In x candidates -> ~ In x cols.
Proof.
  unfold first_present. split.
  - intros Hn x Hx Hin. pose proof (find_none _ _ Hn x Hx) as E. simpl in E.
    apply existsb_eqb_In in Hin. congruence.
  - intros Hall. destruct (List.find _ candidates) as [c|] eqn:Hf; [|reflexivity].
    apply find_some in Hf. destruct Hf as [Hc E]. apply existsb_eqb_In in E.
    exfalso. apply (Hall c Hc E).
Qed.

Lemma usecols_spec_aux (cols : list string) :
  (usecols cols = None <->
     (forall c, In c lat_candidates -> ~ In c cols) \/
     (forall c, In c lon_candidates -> ~ In c cols)) /\
  forall u, usecols cols = Some u ->
    (forall c, In c u -> In c cols) /\
    exists lat_col lon_col ids,
      u = lat_col :: lon_col :: ids /\
      (exists before after, lat_candidates = before ++ lat_col :: after /\
                            forall x, In x before -> ~ In x cols) /\
      (exists before after, lon_candidates = before ++ lon_col :: after /\
                            forall x, In x before -> ~ In x cols) /\
      (ids = [] /\ (forall x, In x id_candidates -> ~ In x cols) \/
       exists id_col before after,
         ids = [id_col] /\ id_candidates = before ++ id_col :: after /\
         forall x, In x before -> ~ In x cols).
Proof.
  unfold usecols. split.
  - destruct (first_present lat_candidates cols) as [lat|] eqn:Hlat.
    + destruct (first_present lon_candidates cols) as [lon|] eqn:Hlon.
      * split; [discriminate|]. intros [H|H]; exfalso.
        -- apply (proj2 (first_present_none _ _)) in H. congruence.
        -- apply (proj2 (first_present_none _ _)) in H. congruence.
      * split; [|reflexivity]. intros _. right.
        exact (proj1 (first_present_none _ _) Hlon).
    + split; [|reflexivity]. intros _. left.
      exact (proj1 (first_present_none _ _) Hlat).
  - intros u.
    destruct (first_present lat_candidates cols) as [lat|] eqn:Hlat; [|discriminate].
    destruct (first_present lon_candidates cols) as [lon|] eqn:Hlon; [|discriminate].
    apply first_present_some in Hlat, Hlon.
    destruct Hlat as [Hlat_in Hlat_first], Hlon as [Hlon_in Hlon_first].
    destruct (first_present id_candidates cols) as [idc|] eqn:Hid; intros [= <-].
    + apply first_present_some in Hid. destruct Hid as [Hid_in (b & a & Hb & Ha)].
      split.
      * intros c [<-|[<-|[<-|[]]]]; assumption.
      * exists lat, lon, [idc]. repeat split; try assumption.
        right. exists idc, b, a. auto.
    + pose proof (proj1 (first_present_none _ _) Hid) as Hid'. split.
      * intros c [<-|[<-|[]]]; assumption.
      * exists lat, lon, []. repeat split; try assumption. left. auto.
Qed.

(** X10: [load_wqx_sites] raises on the header exactly when no latitude
    candidate or no longitude candidate is a column of the file.
    Otherwise it reads two or three columns, all of them columns of the
    file: the first latitude candidate and the first longitude candidate
    the file has, in the order of the candidate lists, and the first
    identifier candidate when there is one. *)
Theorem usecols_first_candidates (cols : list string) :
  (usecols cols = None <->
     (forall c, In c lat_candidates -> ~ In c cols) \/
     (forall c, In c lon_candidates -> ~ In c cols)) /\
  forall u, usecols cols = Some u ->
    (forall c, In c u -> In c cols) /\
    exists lat_col lon_col ids,
      u = lat_col :: lon_col :: ids /\
      (exists before after, lat_candidates = before ++ lat_col :: after /\
                            forall x, In x before -> ~ In x cols) /\
      (exists before after, lon_candidates = before ++ lon_col :: after /\
                            forall x, In x before -> ~ In x cols) /\
      (ids = [] /\ (forall x, In x id_candidates -> ~ In x cols) \/
       exists id_col before after,
         ids = [id_col] /\ id_candidates = before ++ id_col :: after /\
         forall x, In x before -> ~ In x cols).
Proof. apply usecols_spec_aux. Qed.

Example usecols_sample :
  usecols ["OrganizationIdentifier"; "Lat"; "Latitude"; "LongitudeMeasure"]%string
  = Some ["Latitude"; "LongitudeMeasure"; "OrganizationIdentifier"]%string /\
  usecols ["MonitoringLocationIdentifier"; "LatitudeMeasure"]%string = None.
Proof. split; reflexivity. Qed.

(** *** Distance columns *)

Lemma string_length_app (s t : string) :
  String.length (s ++ t) = String.length s + String.length t.
Proof. induction s as [|c s IH]; simpl; [reflexivity | now rewrite IH]. Qed.

Lemma substring_all (t : string) : substring 0 (String.length t) t = t.
Proof. induction t as [|c t IH]; simpl; [reflexivity | now rewrite IH]. Qed.

Lemma substring_skip (s t : string) :
  substring (String.length s) (String.length t) (s ++ t) = t.
Proof. induction s as [|c s IH]; simpl; [apply substring_all | exact IH]. Qed.

Lemma endswith_app (s suffix : string) : endswith (s ++ suffix) suffix = true.
Proof.
  unfold endswith. rewrite string_length_app.
  destruct (Nat.leb_spec (String.length suffix) (String.length s + String.length suffix));
    [|lia].
  replace (String.length s + String.length suffix - String.length suffix)
    with (String.length s) by lia.
  rewrite substring_skip. apply String.eqb_refl.
Qed.

(** X11: whatever the layers are called, the columns the final summary
    takes for distance columns are exactly the [{name}_dist_m] columns the
    joins added: each of them ends in [_dist_m], and no column
    [load_wqx_sites] can keep, nor the geometry column, does. *)
Theorem dist_cols_are_join_columns (cols u kept names : list string) :
  usecols cols = Some u ->
  (forall c, In c kept -> In c u) ->
  List.filter (fun c => endswith c "_dist_m")
    (kept ++ ["geometry"%string] ++ map dist_col names)
  = map dist_col names.
Proof.
  intros Hu Hkept.
  assert (Hcand : forall c, In c u -> endswith c "_dist_m" = false).
  { destruct (proj2 (usecols_spec_aux cols) u Hu)
      as (_ & lat & lon & ids & -> & Hlat & Hlon & Hid).
    intros c Hc.
    assert (Hall : In c (lat_candidates ++ lon_candidates ++ id_candidates)).
    { rewrite !in_app_iff. destruct Hc as [<-|[<-|Hc]].
      - left. destruct Hlat as (b & a & -> & _). apply in_app_iff. right. now left.
      - right. left. destruct Hlon as (b & a & -> & _). apply in_app_iff. right. now left.
      - right. right. destruct Hid as [[-> _]|(i & b & a & -> & -> & _)].
        + destruct Hc.
        + destruct Hc as [<-|[]]. apply in_app_iff. right. now left. }
    clear - Hall. simpl in Hall.
    repeat (destruct Hall as [<-|Hall]; [reflexivity|]). destruct Hall. }
  rewrite !List.filter_app.
  replace (List.filter (fun c => endswith c "_dist_m") kept) with (@nil string).
  - simpl. induction names as [|n names IH]; [reflexivity|].
    simpl. unfold dist_col at 1. rewrite endswith_app. f_equal. exact IH.
  - symmetry. induction kept as [|k kept IH]; [reflexivity|].
    simpl. rewrite (Hcand k) by (apply Hkept; now left).
    apply IH. intros c Hc. apply Hkept. now right.
Qed.

Lemma dist_cols_are_join_columns_witness :
  List.filter (fun c => endswith c "_dist_m")
    (["LongitudeMeasure"; "Latitude"]%string ++ ["geometry"%string]
     ++ map dist_col ["underground"; "quarry_dist_m_old"]%string)
  = map dist_col ["underground"; "quarry_dist_m_old"]%string.
Proof.
  apply (dist_cols_are_join_columns
           ["Latitude"; "LongitudeMeasure"; "Other"]%string
           ["Latitude"; "LongitudeMeasure"]%string
           ["LongitudeMeasure"; "Latitude"]%string
           ["underground"; "quarry_dist_m_old"]%string).
  - reflexivity.
  - intros c [<-|[<-|[]]]; simpl; tauto.
Defined.

End WqxSitesSpec.
Module JoinedFrameSpec.
Import ProximityJoinPa.
Local Open Scope nat_scope.

Lemma row_min_none (l : site_row) :
  row_min l = None <-> forall c v, In (c, v) l -> v = None.
Proof.
  induction l as [|[c [x|]] rest IH]; simpl.
  - split; [intros _ c v [] | reflexivity].
  - split.
    + destruct (row_min rest); discriminate.
    + intros Hall. specialize (Hall c (Some x) ltac:(now left)). discriminate.
  - rewrite IH. split.
    + intros Hall c' v [[= <- <-]|Hin]; [reflexivity | now apply (Hall c')].
    + intros Hall c' v Hin. apply (Hall c'). now right.
Qed.

Lemma idxmin_none (l : site_row) :
  idxmin l = None <-> forall c v, In (c, v) l -> v = None.
Proof.
  induction l as [|[c [x|]] rest IH]; simpl.
  - split; [intros _ c v [] | reflexivity].
  - split; [discriminate|].
    intros Hall. specialize (Hall c (Some x) ltac:(now left)). discriminate.
  - rewrite IH. split.
    + intros Hall c' v [[= <- <-]|Hin]; [reflexivity | now apply (Hall c')].
    + intros Hall c' v Hin. apply (Hall c'). now right.
Qed.

(** X12: in the final summary [nearest_mine_dist_m] and
    [nearest_mine_type] are null together, exactly for the sites whose
    distance columns are all null (no feature of any layer within the
    radius, or no distance column at all). *)
Theorem nearest_mine_null_together (row : site_row) :
  (nearest_mine_dist_m row = None <->
     forall c v, In (c, v) row -> endswith c "_dist_m" = true -> v = None) /\
  (nearest_mine_type row = None <-> nearest_mine_dist_m row = None).
Proof.
  assert (Hd : nearest_mine_dist_m row = None <->
            forall c v, In (c, v) row -> endswith c "_dist_m" = true -> v = None).
  { unfold nearest_mine_dist_m. rewrite row_min_none. unfold dist_cells.
    split; intros Hall c v.
    - intros Hin He. apply (Hall c). apply filter_In. auto.
    - intros Hin. apply filter_In in Hin. destruct Hin as [Hin He].
      now apply (Hall c). }
  split; [exact Hd|].
  unfold nearest_mine_type, nearest_mine_dist_m.
  rewrite row_min_none, <- idxmin_none.
  destruct (idxmin (dist_cells row)); simpl; split; congruence.
Qed.

Section Aligned.

Context {geometry : Type} (distance : geometry -> geometry -> Q).

Lemma filter_at_most_one {A} (f : A -> bool) (l : list A) :
  (forall i j x y, l !! i = Some x -> l !! j = Some y ->
                   f x = true -> f y = true -> i = j) ->
  length (List.filter f l) <= 1.
Proof.
  induction l as [|x rest IH]; intros Hinj; [simpl; lia|].
  simpl. destruct (f x) eqn:Hx.
  - replace (List.filter f rest) with (@nil A); [simpl; lia|].
    symmetry. destruct (List.filter f rest) as [|y ys] eqn:Hf; [reflexivity|].
    assert (Hy : In y (List.filter f rest)) by (rewrite Hf; now left).
    apply filter_In in Hy. destruct Hy as [Hy Hfy].
    apply list_elem_of_In, list_elem_of_lookup in Hy. destruct Hy as (j & Hj).
    specialize (Hinj 0 (S j) x y eq_refl Hj Hx Hfy). discriminate.
  - apply IH. intros i j a b Hi Hj Ha Hb.
    specialize (Hinj (S i) (S j) a b Hi Hj Ha Hb). lia.
Qed.

Lemma sjoin_row_nonempty (r : Q) (g : geometry) (mines : list geometry) :
  1 <= length (sjoin_nearest_row geometry distance r g mines).
Proof.
  destruct (RadiusSpec.sjoin_nearest_row_cases distance r g mines)
    as [->|(d & n & _ & _ & ->)]; simpl; lia.
Qed.

Lemma sjoin_row_single (r : Q) (g : geometry) (mines : list geometry) :
  (forall i j m m', mines !! i = Some m -> mines !! j = Some m' ->
                    (distance g m == distance g m')%Q -> i = j) ->
  length (sjoin_nearest_row geometry distance r g mines) = 1.
Proof.
  intros Hinj. apply Nat.le_antisymm; [|apply sjoin_row_nonempty].
  unfold sjoin_nearest_row.
  destruct (min_distance geometry distance g mines) as [d|]; [|simpl; lia].
  destruct (Qle_bool d r); [|simpl; lia].
  rewrite length_map. apply filter_at_most_one.
  intros i j m m' Hi Hj Hm Hm'. apply (Hinj i j m m' Hi Hj).
  apply Qeq_bool_iff in Hm, Hm'. now rewrite Hm, Hm'.
Qed.

(** X13: the frame a layer's join returns has at least one row per site,
    so it is never shorter than [sites]; when no site has two features of
    the layer at the same distance it has exactly one row per site and
    its row [k] is the row of site [k], which is what the positional
    [pd.concat(..., axis=1)] after [reset_index] relies on. *)
Theorem joined_dist_aligned (sites mines : list geometry) :
  length sites <= length (joined_dist geometry distance sites mines) /\
  ((forall g, In g sites ->
      forall i j m m', mines !! i = Some m -> mines !! j = Some m' ->
                       (distance g m == distance g m')%Q -> i = j) ->
   length (joined_dist geometry distance sites mines) = length sites /\
   forall k g, sites !! k = Some g ->
     exists c, sjoin_nearest_row geometry distance SEARCH_RADIUS_M g mines = [c] /\
               joined_dist geometry distance sites mines !! k = Some c).
Proof.
  unfold joined_dist. split.
  - induction sites as [|g sites IH]; [simpl; lia|].
    simpl. rewrite length_app.
    pose proof (sjoin_row_nonempty SEARCH_RADIUS_M g mines). lia.
  - intros Hinj.
    assert (Hmap : flat_map (fun g => sjoin_nearest_row geometry distance
                                        SEARCH_RADIUS_M g mines) sites
                   = map (fun g => List.hd None
                                     (sjoin_nearest_row geometry distance
                                        SEARCH_RADIUS_M g mines)) sites).
    { induction sites as [|g sites IH]; [reflexivity|].
      simpl. rewrite IH by (intros g' Hg'; apply Hinj; now right).
      pose proof (sjoin_row_single SEARCH_RADIUS_M g mines
                    (Hinj g ltac:(now left))) as Hlen.
      destruct (sjoin_nearest_row geometry distance SEARCH_RADIUS_M g mines)
        as [|c [|c' l]]; simpl in Hlen; try lia. reflexivity. }
    rewrite Hmap. split; [apply length_map|].
    intros k g Hk.
    pose proof (sjoin_row_single SEARCH_RADIUS_M g mines
                  (Hinj g (IndexSpec.lookup_In _ _ _ Hk))) as Hlen.
    destruct (sjoin_nearest_row geometry distance SEARCH_RADIUS_M g mines)
      as [|c [|c' l]] eqn:Hrow; simpl in Hlen; try lia.
    exists c. split; [reflexivity|].
    rewrite list_lookup_fmap, Hk. simpl. now rewrite Hrow.
Qed.

End Aligned.

(** A site between two features at the same distance: the join returns
    two rows for it, and the row of the next site moves down. *)
Example joined_dist_tie :
  joined_dist Q ProximityJoin8.line_distance [0; 100]%Q [-(5 # 1); 5 # 1; 40 # 1]%Q
  = [Some (5 # 1); Some (5 # 1); Some (60 # 1)]%Q.
Proof. vm_compute. reflexivity. Qed.

End JoinedFrameSpec.

Module IndexFlowSpec.
Import WatershedHealth NormSpec IndexSpec.
Local Open Scope Q_scope.





(** Order is kept by [safe_norm] between two entries of one series. *)
Lemma safe_norm_monotone (series : list cell) (i j : nat) (x y nx ny : Q) :
  series !! i = Some (Some x) -> series !! j = Some (Some y) ->
  safe_norm series !! i = Some (Some nx) ->
  safe_norm series !! j = Some (Some ny) ->
  x <= y -> nx <= ny.
Proof.
  intros Hi Hj Hni Hnj Hxy.
  destruct (safe_norm_some series i nx Hni) as (v & vs & x' & Hd & Hlt & Hi' & -> & _).
  destruct (safe_norm_some series j ny Hnj) as (v' & vs' & y' & Hd' & _ & Hj' & -> & _).
  rewrite Hd in Hd'. injection Hd' as <- <-.
  rewrite Hi in Hi'. injection Hi' as <-.
  rewrite Hj in Hj'. injection Hj' as <-.
  apply div_monotone; lra.
Qed.

(** X15: distance is inverted so that proximity raises the index: of two
    records, the one that is nearer to a mine and whose [chem_score] is
    not lower has a [Sickness_Index] at least as high. *)
Theorem nearer_record_not_healthier (chem_cols : list (list cell)) (dist : list cell)
    (i j : nat) (x y ci cj si sj : Q)
    (Hi : dist !! i = Some (Some x))
    (Hj : dist !! j = Some (Some y))
    (Hnear : x <= y)
    (Hci : chem_score chem_cols (length dist) !! i = Some (Some ci))
    (Hcj : chem_score chem_cols (length dist) !! j = Some (Some cj))
    (Hchem : cj <= ci)
    (Hsi : Sickness_Index chem_cols dist !! i = Some (Some si))
    (Hsj : Sickness_Index chem_cols dist !! j = Some (Some sj)) :
  sj <= si.
Proof.
  destruct (Sickness_Index_lookup chem_cols dist i _ Hsi) as (ci' & di & Hci' & Hdi & Ei).
  destruct (Sickness_Index_lookup chem_cols dist j _ Hsj) as (cj' & dj & Hcj' & Hdj & Ej).
  rewrite Hci in Hci'. injection Hci' as <-.
  rewrite Hcj in Hcj'. injection Hcj' as <-.
  destruct di as [a|]; [|discriminate]. destruct dj as [b|]; [|discriminate].
  simpl in Ei, Ej. injection Ei as ->. injection Ej as ->.
  destruct (dist_inv_some dist i a Hdi) as (na & Hna & ->).
  destruct (dist_inv_some dist j b Hdj) as (nb & Hnb & ->).
  pose proof (safe_norm_monotone dist i j x y na nb Hi Hj Hna Hnb Hnear). lra.
Qed.

Lemma nearer_record_not_healthier_witness :
  (1600 # 8000 <= 3200 # 8000)%Q.
Proof.
  apply (nearer_record_not_healthier
           [[Some (1 # 1); Some (1 # 1); Some (5 # 1)]]
           [Some (10 # 1); Some (20 # 1); Some (30 # 1)]
           0 1 (10 # 1) (20 # 1) (0 # 4) (0 # 4) (3200 # 8000) (1600 # 8000)).
  - reflexivity.
  - reflexivity.
  - discriminate.
  - reflexivity.
  - reflexivity.
  - discriminate.
  - reflexivity.
  - reflexivity.
Defined.

Example nearer_record_sample :
  exists s0 s1 s2,
    Sickness_Index [[Some (1 # 1); Some (1 # 1); Some (5 # 1)]]
      [Some (10 # 1); Some (20 # 1); Some (30 # 1)]
    = [Some s0; Some s1; Some s2] /\
    s0 == 4 # 10 /\ s1 == 2 # 10 /\ s2 == 6 # 10.
Proof. eexists _, _, _. split; [vm_compute; reflexivity|]. repeat split. Qed.

End IndexFlowSpec.
Module NormAlgebraSpec.
Import WatershedHealth NormSpec IndexSpec.
Local Open Scope Q_scope.

(** The cells of two columns agree: null together, or equal numbers. *)
Lemma div_by_spread (u lo hi : Q) :
  lo == 0 -> hi == 1 -> (u - lo) / (hi - lo) == u.
Proof. intros -> ->. field. Qed.

Lemma norm_zero_one (series : list cell) (v : Q) (vs : list Q) :
  dropna series = v :: vs -> series_min v vs < series_max v vs ->
  (exists i, safe_norm series !! i = Some (Some ((series_min v vs - series_min v vs)
                                              / (series_max v vs - series_min v vs)))
             \/ exists x, x == series_min v vs /\
                  safe_norm series !! i
                  = Some (Some ((x - series_min v vs)
                                / (series_max v vs - series_min v vs)))) /\
  (exists i x, x == series_max v vs /\
               safe_norm series !! i
               = Some (Some ((x - series_min v vs)
                             / (series_max v vs - series_min v vs)))).
Proof.
  intros Hd Hlt.
  destruct (series_min_spec vs v) as [_ (lo & Hlo & Elo)].
  destruct (series_max_spec vs v) as [_ (hi & Hhi & Ehi)].
  rewrite <- Hd in Hlo, Hhi. apply dropna_In in Hlo, Hhi.
  destruct (In_lookup _ _ Hlo) as (i & Hi). destruct (In_lookup _ _ Hhi) as (j & Hj).
  split.
  - exists i. right. exists lo. split; [exact Elo|].
    apply (safe_norm_spread series v vs i lo Hd Hlt Hi).
  - exists j, hi. split; [exact Ehi|].
    apply (safe_norm_spread series v vs j hi Hd Hlt Hj).
Qed.

(** X16: normalizing a normalized column changes nothing: the second
    pass gives a column of the same length with the same nulls and, cell
    by cell, equal numbers. *)
Theorem safe_norm_idempotent (series : list cell) :
  length (safe_norm (safe_norm series)) = length (safe_norm series) /\
  forall i,
    (safe_norm series !! i = Some None ->
     safe_norm (safe_norm series) !! i = Some None) /\
    (forall u, safe_norm series !! i = Some (Some u) ->
       exists w, safe_norm (safe_norm series) !! i = Some (Some w) /\ w == u).
Proof.
  split; [apply safe_norm_length|].
  intros i. split; [apply safe_norm_null|].
  intros u Hu.
  destruct (safe_norm_some series i u Hu) as (v & vs & x & Hd & Hlt & Hi & Eu & Hx).
  destruct (norm_zero_one series v vs Hd Hlt) as [(i0 & H0) (i1 & x1 & Ex1 & H1)].
  set (lo := series_min v vs) in *. set (hi := series_max v vs) in *.
  assert (Hz : exists z, safe_norm series !! i0 = Some (Some z) /\ z == 0).
  { destruct H0 as [H0|(x0 & Ex0 & H0)]; eexists; (split; [exact H0|]).
    - field. lra.
    - rewrite Ex0. field. lra. }
  destruct Hz as (z & Hz & Ez).
  assert (Eo : (x1 - lo) / (hi - lo) == 1) by (rewrite Ex1; field; lra).
  destruct (dropna (safe_norm series)) as [|v' vs'] eqn:Hd'.
  { exfalso. apply lookup_In in Hu. apply dropna_In in Hu. rewrite Hd' in Hu.
    destruct Hu. }
  assert (Hrange : forall y, In y (v' :: vs') -> 0 <= y <= 1).
  { intros y Hy. rewrite <- Hd' in Hy. apply dropna_In in Hy.
    destruct (In_lookup _ _ Hy) as (k & Hk). apply (safe_norm_range series k y Hk). }
  destruct (series_min_spec vs' v') as [Hmin (m & Hm & Em)].
  destruct (series_max_spec vs' v') as [Hmax (M & HM & EM)].
  assert (Hlo' : series_min v' vs' == 0).
  { apply Qle_antisym.
    - rewrite <- Ez. apply Hmin. rewrite <- Hd'. apply dropna_In.
      apply (lookup_In _ _ _ Hz).
    - rewrite <- Em. apply (Hrange m Hm). }
  assert (Hhi' : series_max v' vs' == 1).
  { apply Qle_antisym.
    - rewrite <- EM. apply (Hrange M HM).
    - rewrite <- Eo. apply Hmax. rewrite <- Hd'. apply dropna_In.
      apply (lookup_In _ _ _ H1). }
  assert (Hlt' : series_min v' vs' < series_max v' vs') by (rewrite Hlo', Hhi'; lra).
  destruct (safe_norm_spread (safe_norm series) v' vs' i u Hd' Hlt' Hu) as [Hs _].
  eexists. split; [exact Hs|]. now apply div_by_spread.
Qed.

(** *** A change of unit *)








End NormAlgebraSpec.

Module WatershedPrepareSpec.
Import WatershedHealth WatershedPrepare NormSpec IndexSpec.
Local Open Scope nat_scope.

Lemma has_col_In (columns : list string) (c : string) :
  has_col columns c = true <-> In c columns.
Proof.
  unfold has_col. rewrite existsb_exists. split.
  - intros (x & Hin & E). apply String.eqb_eq in E. now subst.
  - intros Hin. exists c. split; [exact Hin | apply String.eqb_refl].
Qed.

Lemma chem_cols_present (columns : list string) (c : string) :
  In c (chem_cols columns) -> has_col columns c = true.
Proof. unfold chem_cols. rewrite filter_In. tauto. Qed.

(** X18: the check on required columns can only report the distance
    column or the HUC12 column: it passes exactly when
    [Bituminous_dist_m] and one of [HUC12_ID], [HUC12] are columns of the
    file, whatever chemistry columns are there.  The aggregation,
    however, names all three chemistry columns: a file that lacks one of
    them passes the check and fails at [agg]. *)
Theorem missing_cols_never_chemistry (columns : list string) (dist_any : bool) :
  (forall c, In c (missing_cols columns) -> c = dist_col \/ c = huc_col columns) /\
  (missing_cols columns = [] <->
     In dist_col columns /\
     (In "HUC12_ID"%string columns \/ In "HUC12"%string columns)) /\
  (agg_ok columns dist_any = true <->
     forall c, In c chem_candidates -> In c columns).
Proof.
  assert (Hfilter : missing_cols columns
                    = List.filter (fun c => negb (has_col columns c))
                        [dist_col; huc_col columns]).
  { unfold missing_cols. rewrite List.filter_app.
    replace (List.filter (fun c => negb (has_col columns c)) (chem_cols columns))
      with (@nil string); [reflexivity|].
    symmetry. pose proof (chem_cols_present columns) as Hp.
    induction (chem_cols columns) as [|c cs IH]; [reflexivity|].
    simpl. rewrite (Hp c) by (now left). simpl.
    apply IH. intros x Hx. apply Hp. now right. }
  assert (Hhuc : has_col columns (huc_col columns) = true <->
                 In "HUC12_ID"%string columns \/ In "HUC12"%string columns).
  { unfold huc_col. destruct (has_col columns "HUC12_ID") eqn:E.
    - rewrite E. apply has_col_In in E. tauto.
    - rewrite has_col_In. split; [tauto|]. intros [H|H]; [|exact H].
      apply has_col_In in H. congruence. }
  split; [|split].
  - intros c. rewrite Hfilter. intros Hc. apply filter_In in Hc.
    destruct Hc as [[<-|[<-|[]]] _]; tauto.
  - rewrite Hfilter, <- Hhuc, <- has_col_In. simpl.
    destruct (has_col columns dist_col), (has_col columns (huc_col columns)); simpl;
      split; try tauto; try discriminate; intros [H1 H2]; discriminate.
  - unfold agg_ok, data_columns, chem_cols, huc_col, chem_candidates.
    cbn [List.filter].
    destruct (has_col columns "Fe") eqn:E1,
             (has_col columns "ResultMeasureValue") eqn:E2,
             (has_col columns "Temperatur") eqn:E3,
             (has_col columns "HUC12_ID") eqn:E4, dist_any;
      vm_compute forallb;
      (split;
       [ try discriminate; intros _ c [<-|[<-|[<-|[]]]]; now apply has_col_In
       | intros Hall; try reflexivity; exfalso ]).
    all: try (specialize (Hall "Fe"%string ltac:(simpl; tauto));
              apply has_col_In in Hall; congruence).
    all: try (specialize (Hall "ResultMeasureValue"%string ltac:(simpl; tauto));
              apply has_col_In in Hall; congruence).
    all: try (specialize (Hall "Temperatur"%string ltac:(simpl; tauto));
              apply has_col_In in Hall; congruence).
Qed.

Example missing_cols_sample :
  missing_cols ["HUC12"; "Bituminous_dist_m"; "ResultMeasureValue"]%string = [] /\
  agg_ok ["HUC12"; "Bituminous_dist_m"; "ResultMeasureValue"]%string true = false /\
  missing_cols ["Fe"; "HUC10"]%string = ["Bituminous_dist_m"; "HUC12"]%string.
Proof. repeat split; reflexivity. Qed.

(** *** The groups *)

Abbreviation slt := OrderedTypeEx.String_as_OT.lt.

Lemma insert_key_In (k x : string) (keys : list string) :
  In x (insert_key k keys) <-> x = k \/ In x keys.
Proof.
  induction keys as [|y rest IH]; simpl; [intuition congruence|].
  destruct (String.compare k y) eqn:E; simpl.
  - apply OrderedTypeEx.String_as_OT.cmp_eq in E. subst. intuition congruence.
  - intuition congruence.
  - rewrite IH. intuition congruence.
Qed.

Lemma insert_key_sorted (k : string) (keys : list string) :
  StronglySorted slt keys -> StronglySorted slt (insert_key k keys).
Proof.
  induction keys as [|y rest IH]; intros Hs; simpl.
  - constructor; constructor.
  - destruct (String.compare k y) eqn:E.
    + exact Hs.
    + apply OrderedTypeEx.String_as_OT.cmp_lt in E.
      constructor; [exact Hs|]. constructor; [exact E|].
      apply StronglySorted_inv in Hs. destruct Hs as [_ Hall].
      rewrite List.Forall_forall in Hall. apply List.Forall_forall.
      intros z Hz. apply OrderedTypeEx.String_as_OT.lt_trans with y; auto.
    + assert (Hyk : slt y k).
      { apply OrderedTypeEx.String_as_OT.cmp_lt.
        change (String.compare y k = Lt).
        pose proof (OrderedTypeEx.String_as_OT.cmp_antisym y k) as Ha.
        unfold OrderedTypeEx.String_as_OT.cmp in Ha. rewrite E in Ha. exact Ha. }
      apply StronglySorted_inv in Hs. destruct Hs as [Hrest Hall].
      constructor; [now apply IH|].
      rewrite List.Forall_forall in Hall. apply List.Forall_forall.
      intros z Hz. apply insert_key_In in Hz. destruct Hz as [->|Hz]; auto.
Qed.

Lemma group_keys_sorted (data : list (string * cell)) :
  StronglySorted slt (group_keys data).
Proof.
  unfold group_keys. induction (map fst data) as [|k ks IH]; simpl.
  - constructor.
  - now apply insert_key_sorted.
Qed.

Lemma group_keys_In (data : list (string * cell)) (k : string) :
  In k (group_keys data) <-> exists v, In (k, v) data.
Proof.
  unfold group_keys. induction data as [|[k' v'] rest IH]; simpl.
  - split; [intros [] | intros (v & [])].
  - rewrite insert_key_In, IH. split.
    + intros [->|(v & Hv)]; [exists v'; now left | exists v; now right].
    + intros (v & [[= <- <-]|Hv]); [now left | right; eauto].
Qed.

Lemma sorted_NoDup (keys : list string) : StronglySorted slt keys -> List.NoDup keys.
Proof.
  induction keys as [|k rest IH]; intros Hs; [constructor|].
  apply StronglySorted_inv in Hs. destruct Hs as [Hrest Hall].
  constructor; [|now apply IH].
  intros Hin. rewrite List.Forall_forall in Hall.
  apply (OrderedTypeEx.String_as_OT.lt_not_eq _ _ (Hall k Hin)). reflexivity.
Qed.

Lemma group_cells_In (k : string) (data : list (string * cell)) (c : cell) :
  In c (group_cells k data) <-> In (k, c) data.
Proof.
  unfold group_cells. rewrite in_map_iff. split.
  - intros ([k' c'] & <- & Hin). apply filter_In in Hin. destruct Hin as [Hin E].
    simpl in E. apply String.eqb_eq in E. simpl. now subst.
  - intros Hin. exists (k, c). split; [reflexivity|].
    apply filter_In. split; [exact Hin | apply String.eqb_refl].
Qed.

Lemma mean_skipna_none (cells : list cell) :
  mean_skipna cells = None <-> forall c, In c cells -> c = None.
Proof.
  rewrite <- dropna_nil. unfold mean_skipna.
  destruct (dropna cells); split; congruence.
Qed.

(** X19: the aggregated summary has exactly one row for every HUC12 that
    occurs in the data, in ascending order of the identifier; the mean
    index of a HUC12 is null exactly when all its records have a null
    index, and it lies between 0 and 1 when the index of its records
    does. *)
Theorem groupby_mean_rows (data : list (string * cell)) :
  List.NoDup (map fst (groupby_mean data)) /\
  StronglySorted slt (map fst (groupby_mean data)) /\
  (forall k, In k (map fst (groupby_mean data)) <-> exists v, In (k, v) data) /\
  forall k m, In (k, m) (groupby_mean data) ->
    (m = None <-> forall v, In (k, v) data -> v = None) /\
    ((forall x, In (k, Some x) data -> (0 <= x <= 1)%Q) ->
     forall x, m = Some x -> (0 <= x <= 1)%Q).
Proof.
  assert (Hkeys : map fst (groupby_mean data) = group_keys data).
  { unfold groupby_mean. rewrite map_map. simpl. apply map_id. }
  rewrite Hkeys. split; [apply sorted_NoDup, group_keys_sorted|].
  split; [apply group_keys_sorted|]. split; [apply group_keys_In|].
  intros k m Hin. unfold groupby_mean in Hin. apply in_map_iff in Hin.
  destruct Hin as (k' & [= <- <-] & _). split.
  - rewrite mean_skipna_none. split; intros Hall v Hv.
    + apply Hall. now apply group_cells_In.
    + apply Hall. now apply group_cells_In.
  - intros Hrange x Hx.
    apply (mean_skipna_range (group_cells k' data)); [|exact Hx].
    intros y Hy. apply Hrange. now apply group_cells_In.
Qed.

Lemma all_values_none (col : list cell) : all_values col = None <-> In None col.
Proof.
  induction col as [|[x|] rest IH]; simpl.
  - split; [discriminate | intros []].
  - destruct (all_values rest); split; try discriminate.
    + intros [H|H]; [discriminate|]. apply IH in H. discriminate.
    + intros _. right. now apply IH.
    + reflexivity.
  - split; [now left | reflexivity].
Qed.

(** X20: the ranking of the aggregated summary raises exactly when some
    HUC12 of the data has no record with an index; otherwise every HUC12
    gets a rank. *)
Theorem ranking_raises_on_empty_group (data : list (string * cell)) :
  (summary_table (groupby_mean data) = None <->
     exists k, (exists v, In (k, v) data) /\ forall v, In (k, v) data -> v = None) /\
  forall table, summary_table (groupby_mean data) = Some table ->
    forall k, (exists v, In (k, v) data) <-> In k (map huc table).
Proof.
  split.
  - unfold summary_table, ranked.
    destruct (all_values (map snd (groupby_mean data))) as [values|] eqn:Hv; simpl.
    + split; [discriminate|]. intros (k & Hk & Hnull). exfalso.
      assert (Hin : In None (map snd (groupby_mean data))).
      { apply group_keys_In in Hk. unfold groupby_mean. rewrite map_map. simpl.
        apply in_map_iff. exists k. split; [|exact Hk].
        apply mean_skipna_none. intros c Hc. apply group_cells_In in Hc. eauto. }
      apply all_values_none in Hin. congruence.
    + split; [|reflexivity]. intros _. apply all_values_none in Hv.
      unfold groupby_mean in Hv. rewrite map_map in Hv. simpl in Hv.
      apply in_map_iff in Hv. destruct Hv as (k & Hm & Hk).
      exists k. split; [now apply group_keys_In|].
      intros v Hv. apply (proj1 (mean_skipna_none _) Hm). now apply group_cells_In.
  - intros table Ht k. unfold summary_table in Ht.
    destruct (ranked (groupby_mean data)) as [rows|] eqn:Hr; [|discriminate].
    simpl in Ht. injection Ht as <-.
    destruct (RankSpec.ranked_rows _ _ Hr) as (Hhuc & _ & _).
    rewrite <- group_keys_In.
    assert (Hkeys : map fst (groupby_mean data) = group_keys data).
    { unfold groupby_mean. rewrite map_map. simpl. apply map_id. }
    rewrite <- Hkeys, <- Hhuc.
    split; apply Permutation_in; apply Permutation_map;
      [symmetry|]; apply RankSpec.sort_by_rank_perm.
Qed.

Example groupby_mean_sample :
  map fst (groupby_mean [("020502", Some (1 # 2)); ("020501", None);
                         ("020502", None); ("020501", None)]%string)
  = ["020501"; "020502"]%string /\
  summary_table (groupby_mean [("020502", Some (1 # 2)); ("020501", None);
                               ("020502", None); ("020501", None)]%string) = None.
Proof. split; reflexivity. Qed.

End WatershedPrepareSpec.

Module CleanerHeadersSpec.
Import CleanerHeaders.
Local Open Scope nat_scope.

Lemma tidy_cases (c : ascii) :
  (tidy c = "_"%char /\ (c = " "%char \/ c = "/"%char \/ c = "-"%char)) \/
  (tidy c = c /\ c <> " "%char /\ c <> "/"%char /\ c <> "-"%char).
Proof.
  unfold tidy.
  destruct (Ascii.eqb c " ") eqn:E1; [apply Ascii.eqb_eq in E1; left; auto|].
  destruct (Ascii.eqb c "/") eqn:E2; [apply Ascii.eqb_eq in E2; left; auto|].
  destruct (Ascii.eqb c "-") eqn:E3; [apply Ascii.eqb_eq in E3; left; auto|].
  apply Ascii.eqb_neq in E1, E2, E3. right. auto.
Qed.

Lemma clean_header_smap (h : string) : clean_header h = smap tidy (strip h).
Proof.
  unfold clean_header. induction (strip h) as [|c rest IH]; [reflexivity|].
  simpl. rewrite IH. f_equal. unfold tidy.
  destruct (Ascii.eqb c " ") eqn:E1; [reflexivity|].
  destruct (Ascii.eqb c "/") eqn:E2; [reflexivity|].
  destruct (Ascii.eqb c "-") eqn:E3; reflexivity.
Qed.

Lemma tidy_keeps_visible (c : ascii) : is_space c = false -> is_space (tidy c) = false.
Proof.
  intros Hc. destruct (tidy_cases c) as [[-> _]|[-> _]]; [reflexivity | exact Hc].
Qed.

Lemma tidy_idempotent (c : ascii) : tidy (tidy c) = tidy c.
Proof.
  destruct (tidy_cases c) as [[-> _]|[E (H1 & H2 & H3)]]; [reflexivity|].
  rewrite E. exact E.
Qed.

Lemma occurs_smap_tidy (c : ascii) (s : string) :
  c = " "%char \/ c = "/"%char \/ c = "-"%char -> occurs c (smap tidy s) = false.
Proof.
  intros Hc. induction s as [|x rest IH]; [reflexivity|].
  simpl. rewrite IH, orb_false_r. apply Ascii.eqb_neq.
  destruct (tidy_cases x) as [[-> _]|[-> (H1 & H2 & H3)]].
  - destruct Hc as [-> | [-> | ->]]; discriminate.
  - destruct Hc as [-> | [-> | ->]]; assumption.
Qed.

(** *** Stripping *)

Lemma lstrip_head (s : string) :
  lstrip s = EmptyString \/
  exists c rest, lstrip s = String c rest /\ is_space c = false.
Proof.
  induction s as [|c rest IH]; [now left|].
  simpl. destruct (is_space c) eqn:E; [exact IH|]. right. eauto.
Qed.

Lemma rstrip_head (c : ascii) (rest : string) :
  is_space c = false -> exists r, rstrip (String c rest) = String c r.
Proof.
  intros Hc. simpl. destruct (rstrip rest); [rewrite Hc|]; eauto.
Qed.

Lemma rstrip_idempotent (s : string) : rstrip (rstrip s) = rstrip s.
Proof.
  induction s as [|c rest IH]; [reflexivity|].
  simpl. destruct (rstrip rest) as [|x r] eqn:Hr.
  - destruct (is_space c) eqn:E; [reflexivity|]. simpl. now rewrite E.
  - change (rstrip (String c (String x r)))
      with (match rstrip (String x r) with
            | EmptyString => if is_space c then EmptyString else String c EmptyString
            | r0 => String c r0
            end).
    rewrite IH. reflexivity.
Qed.

(** A stripped string: empty, or with visible first character and no
    trailing whitespace. *)
Lemma strip_shape (s : string) :
  rstrip (strip s) = strip s /\
  (strip s = EmptyString \/
   exists c rest, strip s = String c rest /\ is_space c = false).
Proof.
  unfold strip. split; [apply rstrip_idempotent|].
  destruct (lstrip_head s) as [->|(c & rest & -> & Hc)]; [now left|].
  right. destruct (rstrip_head c rest Hc) as (r & ->). eauto.
Qed.

Lemma rstrip_smap (f : ascii -> ascii) (s : string) :
  (forall c, is_space c = false -> is_space (f c) = false) ->
  rstrip s = s -> rstrip (smap f s) = smap f s.
Proof.
  intros Hf. induction s as [|c rest IH]; [reflexivity|].
  simpl. destruct (rstrip rest) as [|x r] eqn:Hr.
  - destruct (is_space c) eqn:E; [discriminate|].
    intros [= <-]. simpl. now rewrite (Hf c E).
  - intros [= <-]. rewrite IH by reflexivity. reflexivity.
Qed.

Lemma smap_length (f : ascii -> ascii) (s : string) :
  String.length (smap f s) = String.length s.
Proof. induction s as [|c rest IH]; simpl; [reflexivity | now rewrite IH]. Qed.

Lemma lstrip_length (s : string) : String.length (lstrip s) <= String.length s.
Proof.
  induction s as [|c rest IH]; simpl; [lia|].
  destruct (is_space c); simpl; lia.
Qed.

Lemma rstrip_length (s : string) : String.length (rstrip s) <= String.length s.
Proof.
  induction s as [|c rest IH]; simpl; [lia|].
  destruct (rstrip rest); [destruct (is_space c)|]; simpl in *; lia.
Qed.

(** X21: a cleaned header holds no space, no slash and no dash, is never
    longer than the header, and cleaning it again changes nothing. *)
Theorem clean_header_stable (h : string) :
  occurs " " (clean_header h) = false /\
  occurs "/" (clean_header h) = false /\
  occurs "-" (clean_header h) = false /\
  String.length (clean_header h) <= String.length h /\
  clean_header (clean_header h) = clean_header h.
Proof.
  rewrite !clean_header_smap.
  split; [apply occurs_smap_tidy; auto|].
  split; [apply occurs_smap_tidy; auto|].
  split; [apply occurs_smap_tidy; auto|].
  split.
  - rewrite smap_length. unfold strip.
    pose proof (rstrip_length (lstrip h)). pose proof (lstrip_length h). lia.
  - destruct (strip_shape h) as [Hr Hl].
    assert (Hstrip : strip (smap tidy (strip h)) = smap tidy (strip h)).
    { unfold strip at 1.
      assert (Hls : lstrip (smap tidy (strip h)) = smap tidy (strip h)).
      { destruct Hl as [->|(c & rest & -> & Hc)]; [reflexivity|].
        simpl. now rewrite (tidy_keeps_visible c Hc). }
      rewrite Hls. apply rstrip_smap; [apply tidy_keeps_visible | exact Hr]. }
    rewrite Hstrip. clear. generalize (strip h). intros s.
    induction s as [|c rest IH]; [reflexivity|].
    simpl. now rewrite tidy_idempotent, IH.
Qed.

Example clean_header_sample :
  clean_header "  Result Measure/Unit-Code  " = "Result_Measure_Unit_Code"%string /\
  clean_header " CharacteristicName" = "CharacteristicName"%string.
Proof. split; reflexivity. Qed.

End CleanerHeadersSpec.

Module FeatureStatsSpec.
Import WatershedHealth Cleaner FeatureStats NormSpec IndexSpec.
Local Open Scope Q_scope.

(** X22: the two scripts agree on the AMD parameters: when
    [clean_wqx_file] writes a subset file, every row of it is a row of
    the cleaned chunks, and the parameter filter of [build_features]
    keeps every row of it. *)
Theorem subset_feeds_features (chunks : list frame)
    (clean_before subset_before : option (list record)) :
  expected_subset chunks <> [] ->
  exists rows,
    out_subset (clean_wqx_file chunks clean_before subset_before) = Some rows /\
    keep_amd rows = rows /\
    forall r, In r rows -> In r (flat_map Cleaner.rows chunks).
Proof.
  intros Hne. unfold clean_wqx_file.
  destruct (CleanerSpec.fold_write_chunk chunks
              {| out_clean := clean_before; out_subset := subset_before;
                 first_clean := true; first_subset := true |}) as [Hsub _].
  cbn zeta in Hsub. cbn [out_subset first_subset] in Hsub.
  exists (expected_subset chunks). split; [|split].
  - rewrite Hsub. destruct (expected_subset chunks); [contradiction | reflexivity].
  - unfold keep_amd, expected_subset.
    change AMD_PARAMS with amd_params.
    set (p := fun r => isin amd_params (field "CharacteristicName" r)).
    generalize (flat_map (fun ch => if has_column "CharacteristicName" ch
                                    then Cleaner.rows ch else []) chunks).
    intros l. induction l as [|x l IH]; [reflexivity|].
    simpl. destruct (p x) eqn:E; simpl; [rewrite E; now f_equal | exact IH].
  - intros r Hr. unfold expected_subset in Hr. apply filter_In in Hr.
    destruct Hr as [Hr _]. apply in_flat_map in Hr. destruct Hr as (ch & Hch & Hr).
    apply in_flat_map. exists ch. split; [exact Hch|].
    destruct (has_column "CharacteristicName" ch); [exact Hr | destruct Hr].
Qed.

Lemma subset_feeds_features_witness :
  exists rows,
    out_subset (clean_wqx_file sample_chunks None None) = Some rows /\
    keep_amd rows = rows /\
    forall r, In r rows -> In r (flat_map Cleaner.rows sample_chunks).
Proof. apply (subset_feeds_features sample_chunks None None). discriminate. Defined.

(** *** Means lie between the extremes *)



(** *** The yearly groups *)










Example site_param_stats_sample :
  exists m lo hi,
    site_param_stats [(2001%Z, 4 # 1); (2003%Z, 999999 # 1); (2001%Z, 6 # 1);
                      (2002%Z, -(3 # 1))]
    = {| s_mean := Some m; s_min := Some lo; s_max := Some hi; s_n_years := 2 |} /\
    m == 1 # 1 /\ lo == -(3 # 1) /\ hi == 5 # 1.
Proof. eexists _, _, _. split; [vm_compute; reflexivity|]. repeat split. Qed.

End FeatureStatsSpec.
